(** * TravelCal: the settlement computation of [App] and its handlers

    A shallow embedding of the [settlements] computation of the TravelCal
    application (the [useMemo] callback of [App], with the interfaces of
    [types.ts]), and the properties of it that the specification states;
    and of the state of [App] with its event handlers, as a transition
    system over the events of the user interface.

    JavaScript numbers are IEEE-754 binary64 values.  The embedding is
    written once, over a class [Number] of the numeric operations the
    callback uses, and has two instances:
    - [Q_Number], exact rational arithmetic, on which the arithmetic
      properties are proved;
    - [Float_Number], Rocq's primitive binary64 floats, on which the
      callback can be evaluated as a JavaScript engine evaluates it.
    Properties that only depend on the control structure are proved for
    every instance.  What is proved on [Q_Number] is a statement about
    exact arithmetic: where binary64 rounds, the callback can depart
    from it, as it does on the input [rounded] below. *)

From Stdlib Require Import QArith Qabs Qminmax Lqa Lia String.
From Stdlib Require Import Floats.PrimFloat Numbers.Cyclic.Int63.Uint63.
From Stdlib Require Import Floats.SpecFloat Floats.FloatAxioms.
From Stdlib Require Import NArith DecimalString DecimalN.
From stdpp Require Import base list sorting.

Local Open Scope string_scope.
Local Open Scope list_scope.

(** [===] on strings is decidable. *)
#[export] Instance string_eq_dec : EqDecision string := String.string_dec.

(** ** Numbers *)

(** The operations on [number] that the callback uses: the literals [0]
    and [1], [participants.length] as a number, [+], [-], [/],
    [Math.abs], [Math.min] and the comparison [<] (with [x > y] read as
    [y < x]). *)
Class Number (num : Type) := {
  n_zero : num;
  n_one : num;
  n_ofNat : nat -> num;
  n_add : num -> num -> num;
  n_sub : num -> num -> num;
  n_div : num -> num -> num;
  n_abs : num -> num;
  n_min : num -> num -> num;
  n_lt : num -> num -> bool
}.

Definition n_gt {num : Type} {N : Number num} (x y : num) : bool := n_lt y x.

(** Strict comparison of rationals as a boolean. *)
Definition Qltb (x y : Q) : bool :=
  match Qcompare x y with
  | Lt => true
  | _ => false
  end.

(** Exact arithmetic.  The result of [+], [-] and [/] is put in lowest
    terms, so that a rational keeps one representation however often it
    goes round the loop. *)
#[export] Instance Q_Number : Number Q := {|
  n_zero := 0%Q;
  n_one := 1%Q;
  n_ofNat := fun n => inject_Z (Z.of_nat n);
  n_add := fun x y => Qred (x + y);
  n_sub := fun x y => Qred (x - y);
  n_div := fun x y => Qred (x / y);
  n_abs := Qabs;
  n_min := Qmin;
  n_lt := Qltb
|}.

(** [Math.min] on binary64: [NaN] if either argument is [NaN], and [-0]
    is smaller than [+0]. *)
Definition float_min (x y : float) : float :=
  if PrimFloat.is_nan x then x
  else if PrimFloat.is_nan y then y
  else if PrimFloat.ltb x y then x
  else if PrimFloat.ltb y x then y
  else if PrimFloat.get_sign x then x
  else y.

#[export] Instance Float_Number : Number float := {|
  n_zero := PrimFloat.zero;
  n_one := PrimFloat.one;
  n_ofNat := fun n => PrimFloat.of_uint63 (Uint63.of_Z (Z.of_nat n));
  n_add := PrimFloat.add;
  n_sub := PrimFloat.sub;
  n_div := PrimFloat.div;
  n_abs := PrimFloat.abs;
  n_min := float_min;
  n_lt := PrimFloat.ltb
|}.

(** ** Data model ([types.ts]) *)

Module Participant.
Record t := mk { id : string; name : string }.
End Participant.

Module Expense.
Record t (num : Type) := mk {
  id : string;
  payerId : string;
  amount : num;
  description : option string
}.
Arguments mk {num}.
Arguments id {num}.
Arguments payerId {num}.
Arguments amount {num}.
Arguments description {num}.
End Expense.

Module Settlement.
Record t (num : Type) := mk {
  fromId : string;
  toId : string;
  amount : num
}.
Arguments mk {num}.
Arguments fromId {num}.
Arguments toId {num}.
Arguments amount {num}.
End Settlement.

(** The objects [{ ...p, paid, balance }] of the [balances] array. *)
Module Balance.
Record t (num : Type) := mk {
  id : string;
  name : string;
  paid : num;
  balance : num
}.
Arguments mk {num}.
Arguments id {num}.
Arguments name {num}.
Arguments paid {num}.
Arguments balance {num}.

(** [b.balance = v] on a copy of [b]. *)
Definition set_balance {num} (v : num) (b : t num) : t num :=
  mk (id b) (name b) (paid b) v.
End Balance.

(** ** Errors *)

(** Reading a property of [undefined] throws a [TypeError]; nothing else
    in the callback can throw. *)
Inductive result (A : Type) : Type :=
| Ok (a : A)
| TypeError.
Arguments Ok {A}.
Arguments TypeError {A}.

Definition bind {A B} (r : result A) (k : A -> result B) : result B :=
  match r with
  | Ok a => k a
  | TypeError => TypeError
  end.

Notation "'let*' x ':=' r 'in' k" := (bind r (fun x => k))
  (at level 10, x name, r at level 100, k at level 200).

(** [arr[i]] followed by a property access: a [TypeError] when [i] is out
    of range. *)
Definition at_index {A} (l : list A) (i : nat) : result A :=
  match l !! i with
  | Some a => Ok a
  | None => TypeError
  end.

(** ** The computation *)

Section Settlements.
Context {num : Type} {N : Number num}.

(** [expenses.reduce((sum, e) => sum + e.amount, 0)] *)
Definition sumAmounts (es : list (Expense.t num)) : num :=
  fold_left (fun sum e => n_add sum (Expense.amount e)) es n_zero.

Definition totalSpent (es : list (Expense.t num)) : num := sumAmounts es.

Definition average (ps : list Participant.t) (es : list (Expense.t num)) : num :=
  n_div (totalSpent es) (n_ofNat (length ps)).

(** [expenses.filter(e => e.payerId === p.id).reduce(...)] *)
Definition paid (p : Participant.t) (es : list (Expense.t num)) : num :=
  sumAmounts
    (List.filter (fun e => String.eqb (Expense.payerId e) (Participant.id p)) es).

(** [participants.map(p => ({ ...p, paid, balance: paid - average }))];
    the second [map], which copies every object, is the identity on
    values. *)
Definition computeBalances (ps : list Participant.t) (es : list (Expense.t num))
  : list (Balance.t num) :=
  List.map
    (fun p =>
       Balance.mk (Participant.id p) (Participant.name p) (paid p es)
         (n_sub (paid p es) (average ps es)))
    ps.

(** The comparator [(a, b) => a.balance - b.balance]: [b] goes before
    [a] when it is positive. *)
Definition comparator (a b : Balance.t num) : num :=
  n_sub (Balance.balance a) (Balance.balance b).

(** [Array.prototype.sort] is stable; under a consistent comparator
    every stable sort returns the same array, here computed by
    insertion.  [insert a l] puts [a], which stood before every element
    of [l], after the elements of [l] that compare strictly below it.
    (With [NaN] or infinite balances the comparator is not consistent
    and ECMAScript leaves the order to the engine; what is proved below
    about the order is proved in exact arithmetic.) *)
Fixpoint insert (a : Balance.t num) (l : list (Balance.t num)) : list (Balance.t num) :=
  match l with
  | [] => [a]
  | b :: l' =>
      if n_gt (comparator a b) n_zero then b :: insert a l' else a :: b :: l'
  end.

Definition sort (l : list (Balance.t num)) : list (Balance.t num) :=
  List.fold_right insert [] l.

(** The variables of the loop. *)
Record LoopState := mkLoop {
  balances : list (Balance.t num);
  results : list (Settlement.t num);
  loopCount : nat
}.

(** What one pass through the body of the [while] does: [break], or
    fall through to the next test of the guard. *)
Inductive Step :=
| Break (st : LoopState)
| Next (st : LoopState).

(** [Math.abs(debtor.balance) < 1 && Math.abs(creditor.balance) < 1] *)
Definition settled (debtor creditor : Balance.t num) : bool :=
  n_lt (n_abs (Balance.balance debtor)) n_one
  && n_lt (n_abs (Balance.balance creditor)) n_one.

(** [Math.min(Math.abs(debtor.balance), creditor.balance)] *)
Definition transferAmount (debtor creditor : Balance.t num) : num :=
  n_min (n_abs (Balance.balance debtor)) (Balance.balance creditor).

(** [x.balance += amount] and [x.balance -= amount] on the object at
    index [i] of the array. *)
Definition credit (amount : num) (i : nat) (l : list (Balance.t num)) :=
  alter (fun b => Balance.set_balance (n_add (Balance.balance b) amount) b) i l.

Definition debit (amount : num) (i : nat) (l : list (Balance.t num)) :=
  alter (fun b => Balance.set_balance (n_sub (Balance.balance b) amount) b) i l.

(** The body of the [while] loop (lines 111-132).  [debtor] and
    [creditor] are references into the array: with a single
    participant they are the same object, which the two indexed
    updates in sequence reproduce. *)
Definition iteration (st : LoopState) : result Step :=
  let sorted := sort (balances st) in
  let* debtor := at_index sorted 0 in
  let* creditor := at_index sorted (length sorted - 1) in
  if settled debtor creditor then Ok (Break (mkLoop sorted (results st) (loopCount st)))
  else
    let amount := transferAmount debtor creditor in
    let results' :=
      if n_gt amount n_zero
      then results st ++ [Settlement.mk (Balance.id debtor) (Balance.id creditor) amount]
      else results st in
    let balances' := debit amount (length sorted - 1) (credit amount 0 sorted) in
    Ok (Next (mkLoop balances' results' (S (loopCount st)))).

(** How the loop was left. *)
Inductive Exit := Settled | CapReached.

Definition cap : nat := 100.

(** [while (loopCount < 100) { ... }].  The recursion is on [fuel], a
    bound on the number of passes; the loop is entered with [loopCount]
    0 and [cap] as fuel, which the guard never lets run out (see
    [while_fuel]). *)
Fixpoint while (fuel : nat) (st : LoopState) : result (Exit * LoopState) :=
  match fuel with
  | O => Ok (CapReached, st)
  | S fuel' =>
      if Nat.ltb (loopCount st) cap then
        let* s := iteration st in
        match s with
        | Break st' => Ok (Settled, st')
        | Next st' => while fuel' st'
        end
      else Ok (CapReached, st)
  end.

(** The state in which the loop is entered. *)
Definition initial (ps : list Participant.t) (es : list (Expense.t num)) : LoopState :=
  mkLoop (computeBalances ps es) [] 0.

(** The loop of the callback, with the way it was left and its final
    variables. *)
Definition greedy (ps : list Participant.t) (es : list (Expense.t num))
  : result (Exit * LoopState) :=
  while cap (initial ps es).

(** The [useMemo] callback (lines 82-136). *)
Definition settlements (ps : list Participant.t) (es : list (Expense.t num))
  : result (list (Settlement.t num)) :=
  if Nat.eqb (length ps) 0 then Ok []
  else
    let* r := greedy ps es in
    Ok (results (snd r)).

End Settlements.

Arguments LoopState num : clear implicits.
Arguments Step num : clear implicits.

(** ** Notions in which the properties are stated *)

Section Trace.
Context {num : Type} {N : Number num}.
Implicit Types (st : LoopState num).

(** [reaches st k st']: [k] passes through the body, none of which
    does [break], lead from [st] to [st']. *)
Inductive reaches : LoopState num → nat → LoopState num → Prop :=
| reaches_O st : reaches st 0 st
| reaches_S st st1 k st' :
    iteration st = Ok (Next st1) → reaches st1 k st' → reaches st (S k) st'.

(** The pass through the body that starts in [st] pushes [s] onto
    [results], with [d] and [c] as debtor and creditor. *)
Definition emits st (d c : Balance.t num) (s : Settlement.t num) : Prop :=
  sort (balances st) !! 0 = Some d
  ∧ sort (balances st) !! (length (sort (balances st)) - 1) = Some c
  ∧ settled d c = false
  ∧ n_gt (transferAmount d c) n_zero = true
  ∧ s = Settlement.mk (Balance.id d) (Balance.id c) (transferAmount d c).

(** A settlement applied to one balance object: its amount is added to
    the balance of the participant [fromId] and subtracted from the
    balance of the participant [toId]. *)
Definition applyTo (s : Settlement.t num) (b : Balance.t num) : Balance.t num :=
  let b1 :=
    if String.eqb (Balance.id b) (Settlement.fromId s)
    then Balance.set_balance (n_add (Balance.balance b) (Settlement.amount s)) b
    else b in
  if String.eqb (Balance.id b1) (Settlement.toId s)
  then Balance.set_balance (n_sub (Balance.balance b1) (Settlement.amount s)) b1
  else b1.

Definition applySettlement (s : Settlement.t num) (l : list (Balance.t num))
  : list (Balance.t num) :=
  List.map (applyTo s) l.

(** The settlements of a list applied in the order of the list. *)
Definition applySettlements (ss : list (Settlement.t num)) (l : list (Balance.t num))
  : list (Balance.t num) :=
  fold_left (fun l' s => applySettlement s l') ss l.

End Trace.

Section Sums.
Local Open Scope Q_scope.
Implicit Types (l : list (Balance.t Q)).
Implicit Types (ps : list Participant.t) (es : list (Expense.t Q)).

(** Ascending order of balance. *)
Definition below (a b : Balance.t Q) : Prop := Balance.balance a <= Balance.balance b.

Fixpoint Qsum (xs : list Q) : Q :=
  match xs with
  | [] => 0
  | x :: xs' => x + Qsum xs'
  end.

(** The sum of the balances of an array. *)
Definition sumBalances l : Q := Qsum (List.map Balance.balance l).

(** The expense [e] names one of the participants as its payer. *)
Definition attributed ps (e : Expense.t Q) : bool :=
  existsb (fun p => String.eqb (Expense.payerId e) (Participant.id p)) ps.

(** The expenses whose [payerId] is the id of no participant. *)
Definition unattributed ps es : list (Expense.t Q) :=
  List.filter (fun e => negb (attributed ps e)) es.

(** The sum of what the participants have paid. *)
Definition sumPaid ps es : Q := Qsum (List.map (fun p => paid p es) ps).

(** A balance strictly within the tolerance band of one unit around
    zero. *)
Definition inBand (b : Balance.t Q) : Prop := Qabs (Balance.balance b) < 1.

(** The number of balances of the array that are not zero. *)
Definition nonzero l : nat :=
  length (List.filter (fun b => negb (Qeq_bool (Balance.balance b) 0)) l).

(** Arrays on which the loop runs on without effect: nobody is owed
    anything while somebody owes a unit or more, or nobody owes anything
    while somebody is owed nothing and somebody is owed a unit or more. *)
Definition stuck l : Prop :=
  (Forall (fun b => Balance.balance b <= 0) l
   ∧ Exists (fun b => Balance.balance b <= -1) l)
  ∨ (Forall (fun b => 0 <= Balance.balance b) l
     ∧ Exists (fun b => Balance.balance b == 0) l
     ∧ Exists (fun b => 1 <= Balance.balance b) l).

(** The inputs of the interface: the ids of the participants are unique
    and the amount of every expense is strictly positive. *)
Definition wellFormed ps es : Prop :=
  NoDup (Participant.id <$> ps) ∧ Forall (fun e => 0 < Expense.amount e) es.



End Sums.

(** ** Inputs used as examples *)

Definition alice : Participant.t := Participant.mk "1" "A".
Definition bob : Participant.t := Participant.mk "2" "B".
Definition carol : Participant.t := Participant.mk "3" "C".

(** [A] pays 90. *)
Definition dinner {num : Type} {N : Number num} : Expense.t num :=
  Expense.mk "e1" "1" (n_ofNat 90) None.

(** 100 paid by somebody who is no participant (any more). *)
Definition orphan {num : Type} {N : Number num} : Expense.t num :=
  Expense.mk "e2" "0" (n_ofNat 100) None.

(** A second participant registered under the id of [alice]. *)
Definition twin : Participant.t := Participant.mk "1" "B".

(** 3 paid by the participant with id "3". *)
Definition lunch : Expense.t Q := Expense.mk "e3" "3" 3%Q None.

(** An amount of -5, which the input form never lets through, paid by
    somebody who is no participant. *)
Definition refund : Expense.t Q := Expense.mk "e4" "0" (-5)%Q None.



(** ** The application: its state and its handlers ([App]) *)

(** [isNaN] and [<=] on numbers, which [addExpense] uses.  Exact
    rationals have no [NaN]. *)
Class NumberTest (num : Type) := {
  n_isNaN : num -> bool;
  n_le : num -> num -> bool
}.

#[export] Instance Q_NumberTest : NumberTest Q := {|
  n_isNaN := fun _ => false;
  n_le := Qle_bool
|}.

#[export] Instance Float_NumberTest : NumberTest float := {|
  n_isNaN := PrimFloat.is_nan;
  n_le := PrimFloat.leb
|}.

(** [Date.now().toString()]: the decimal numeral of a count of
    milliseconds. *)
Definition toString (now : N) : string := NilZero.string_of_uint (N.to_uint now).

(** A string as a condition: the empty string is falsy. *)
Definition truthy (s : string) : bool := negb (String.eqb s "").

(** [participants.find(p => p.id === id)?.name], as the expense rows and
    the settlement cards show it. *)
Definition nameOf (ps : list Participant.t) (id : string) : option string :=
  option_map Participant.name
    (List.find (fun p => String.eqb (Participant.id p) id) ps).

Module App.

(** [useState<1 | 2 | 3>(1)] *)
Inductive Screen := Step1 | Step2 | Step3.

(** The seven [useState] cells of [App] (lines 11-19). *)
Record State (num : Type) := mk {
  step : Screen;
  participants : list Participant.t;
  expenses : list (Expense.t num);
  newName : string;
  newExpensePayer : string;
  newExpenseAmount : string;
  newExpenseDesc : string
}.
Arguments mk {num}.
Arguments step {num}.
Arguments participants {num}.
Arguments expenses {num}.
Arguments newName {num}.
Arguments newExpensePayer {num}.
Arguments newExpenseAmount {num}.
Arguments newExpenseDesc {num}.

(** What the user can do: the [onChange], [onClick] and [onKeyDown]
    handlers of the JSX (lines 147-296).  A click on Add or Remove
    carries what the environment supplies: the value of [Date.now()],
    the answer to [confirm]. *)
Inductive Event :=
| ChangeName (s : string)
| ClickAdd (now : N)
| ClickRemoveParticipant (id : string)
| ClickNext
| ChangePayer (id : string)
| ChangeAmount (s : string)
| ChangeDesc (s : string)
| ClickAddExpense (now : N)
| ClickDelete (id : string)
| ClickBack
| ClickCalculate
| ClickEdit
| ClickReset (confirmed : bool).

Section Handlers.
Context {num : Type} {Num : Number num} {T : NumberTest num}.

(** [String.prototype.trim] and the global [parseFloat], functions of
    the host. *)
Variable trim : string -> string.
Variable parseFloat : string -> num.

Definition init : State num := mk Step1 [] [] "" "" "" "".

(** Lines 26-32; the focus of the input is not part of the state. *)
Definition addParticipant (now : N) (st : State num) : State num :=
  if negb (truthy (trim (newName st))) then st
  else
    mk (step st)
      (participants st ++ [Participant.mk (toString now) (trim (newName st))])
      (expenses st) "" (newExpensePayer st) (newExpenseAmount st) (newExpenseDesc st).

(** Lines 34-36. *)
Definition removeParticipant (id : string) (st : State num) : State num :=
  mk (step st)
    (List.filter (fun p => negb (String.eqb (Participant.id p) id)) (participants st))
    (expenses st) (newName st) (newExpensePayer st) (newExpenseAmount st)
    (newExpenseDesc st).

(** Lines 38-50: with fewer than two participants an [alert] and
    nothing else; otherwise [participants[0]] exists. *)
Definition startExpenseEntry (st : State num) : State num :=
  match participants st with
  | p0 :: _ :: _ =>
      mk Step2 (participants st) (expenses st) (newName st)
        (if negb (truthy (newExpensePayer st)) then Participant.id p0
         else newExpensePayer st)
        (newExpenseAmount st) (newExpenseDesc st)
  | _ => st
  end.

(** Lines 53-71.  [amount <= 0] is only evaluated when [amount] is not
    [NaN]. *)
Definition addExpense (now : N) (st : State num) : State num :=
  let amount := parseFloat (newExpenseAmount st) in
  if negb (truthy (newExpensePayer st)) || n_isNaN amount || n_le amount n_zero then st
  else
    mk (step st) (participants st)
      (expenses st
         ++ [Expense.mk (toString now) (newExpensePayer st) amount
               (Some (newExpenseDesc st))])
      (newName st) (newExpensePayer st) "" "".

(** Lines 73-75. *)
Definition removeExpense (id : string) (st : State num) : State num :=
  mk (step st) (participants st)
    (List.filter (fun e => negb (String.eqb (Expense.id e) id)) (expenses st))
    (newName st) (newExpensePayer st) (newExpenseAmount st) (newExpenseDesc st).

Definition setStep (s : Screen) (st : State num) : State num :=
  mk s (participants st) (expenses st) (newName st) (newExpensePayer st)
    (newExpenseAmount st) (newExpenseDesc st).

(** Lines 77-79. *)
Definition calculateSettlement (st : State num) : State num := setStep Step3 st.

(** Lines 290-296: the Reset All button. *)
Definition resetAll (confirmed : bool) (st : State num) : State num :=
  if confirmed
  then mk Step1 [] [] (newName st) (newExpensePayer st) (newExpenseAmount st)
         (newExpenseDesc st)
  else st.

(** Line 138. *)
Definition totalTotal (st : State num) : num := sumAmounts (expenses st).

(** The [useMemo] of lines 82-136 on the state. *)
Definition settlementsOf (st : State num) : result (list (Settlement.t num)) :=
  settlements (participants st) (expenses st).

(** The handler of an event. *)
Definition handle (ev : Event) (st : State num) : State num :=
  match ev with
  | ChangeName s =>
      mk (step st) (participants st) (expenses st) s (newExpensePayer st)
        (newExpenseAmount st) (newExpenseDesc st)
  | ClickAdd now => addParticipant now st
  | ClickRemoveParticipant id => removeParticipant id st
  | ClickNext => startExpenseEntry st
  | ChangePayer id =>
      mk (step st) (participants st) (expenses st) (newName st) id
        (newExpenseAmount st) (newExpenseDesc st)
  | ChangeAmount s =>
      mk (step st) (participants st) (expenses st) (newName st) (newExpensePayer st)
        s (newExpenseDesc st)
  | ChangeDesc s =>
      mk (step st) (participants st) (expenses st) (newName st) (newExpensePayer st)
        (newExpenseAmount st) s
  | ClickAddExpense now => addExpense now st
  | ClickDelete id => removeExpense id st
  | ClickBack => setStep Step1 st
  | ClickCalculate => calculateSettlement st
  | ClickEdit => setStep Step2 st
  | ClickReset confirmed => resetAll confirmed st
  end.

(** Whether the element that raises the event is on the screen: the
    card of the current step is the only one rendered, a chip or a
    Delete button exists per participant or expense, the options of the
    select are the participants, the Next button needs a participant and
    the Calculate button is disabled without expenses. *)
Definition offered (ev : Event) (st : State num) : bool :=
  match step st, ev with
  | Step1, ChangeName _ | Step1, ClickAdd _ => true
  | Step1, ClickRemoveParticipant id =>
      existsb (fun p => String.eqb (Participant.id p) id) (participants st)
  | Step1, ClickNext => Nat.ltb 0 (length (participants st))
  | Step2, ChangePayer id =>
      existsb (fun p => String.eqb (Participant.id p) id) (participants st)
  | Step2, ChangeAmount _ | Step2, ChangeDesc _ | Step2, ClickAddExpense _ => true
  | Step2, ClickDelete id =>
      existsb (fun e => String.eqb (Expense.id e) id) (expenses st)
  | Step2, ClickBack => true
  | Step2, ClickCalculate => negb (Nat.eqb (length (expenses st)) 0)
  | Step3, ClickEdit | Step3, ClickReset _ => true
  | _, _ => false
  end.

Definition dispatch (ev : Event) (st : State num) : State num :=
  if offered ev st then handle ev st else st.

(** The state after a sequence of events. *)
Definition run (evs : list Event) (st : State num) : State num :=
  fold_left (fun st' ev => dispatch ev st') evs st.

(** What the guards of the handlers are there for: every expense has an
    amount that is a number above zero and a payer id that is not empty,
    every participant a name and an id that are not empty; past the
    first step there are two participants or more and a payer is
    selected; the settlement plan is only shown with expenses. *)
Definition guarded (st : State num) : Prop :=
  Forall (fun e => n_isNaN (Expense.amount e) = false
                   ∧ n_lt n_zero (Expense.amount e) = true
                   ∧ Expense.payerId e ≠ "")
    (expenses st)
  ∧ Forall (fun p => Participant.name p ≠ "" ∧ Participant.id p ≠ "") (participants st)
  ∧ (step st ≠ Step1 → 2 ≤ length (participants st) ∧ newExpensePayer st ≠ "")
  ∧ (step st = Step3 → expenses st ≠ []).

(** The values of [Date.now()] that became ids of participants. *)
Definition stamps (evs : list Event) : list N :=
  List.flat_map (fun ev => match ev with ClickAdd now => [now] | _ => [] end) evs.

End Handlers.
End App.

(** ** Control structure: facts that hold for every [Number] *)

Section Structure.
Context {num : Type} {N : Number num}.
Implicit Types (st : LoopState num) (l m : list (Balance.t num)).
Implicit Types (a : num) (d c b : Balance.t num).

Lemma insert_Permutation b l : insert b l ≡ₚ b :: l.
Proof.
  induction l as [|x l IH]; simpl; [done|].
  destruct (n_gt _ _); [|done].
  rewrite IH. apply Permutation_swap.
Qed.

Lemma sort_Permutation l : sort l ≡ₚ l.
Proof.
  induction l as [|x l IH]; simpl; [done|].
  rewrite insert_Permutation. by f_equiv.
Qed.

Lemma length_sort l : length (sort l) = length l.
Proof. apply Permutation_length, sort_Permutation. Qed.

Lemma sort_nonempty l : l ≠ [] → sort l ≠ [].
Proof.
  intros Hl Hs. apply Hl, Permutation_nil_r.
  rewrite <- Hs. symmetry. apply sort_Permutation.
Qed.

(** The first and the last element of a non-empty array. *)
Lemma ends_exist l :
  l ≠ [] → ∃ d c, l !! 0 = Some d ∧ l !! (length l - 1) = Some c.
Proof.
  intros Hl. destruct l as [|d l]; [done|].
  exists d. destruct (lookup_lt_is_Some_2 (d :: l) (length (d :: l) - 1)) as [c Hc].
  - simpl. lia.
  - by exists c.
Qed.

(** The array is either a single object, which is then both ends, or
    has distinct first and last positions. *)
Lemma ends_shape l d c :
  l !! 0 = Some d → l !! (length l - 1) = Some c →
  (l = [d] ∧ c = d) ∨ (∃ m, l = d :: m ++ [c]).
Proof.
  intros Hd Hc. destruct l as [|x l]; [done|].
  simpl in Hd. injection Hd as ->.
  destruct (decide (l = [])) as [->|Hne].
  - left. simpl in Hc. by injection Hc as ->.
  - right. destruct (exists_last Hne) as (m & y & ->).
    exists m. simpl in Hc. rewrite Nat.sub_0_r in Hc.
    rewrite length_app in Hc. simpl in Hc.
    rewrite lookup_cons_ne_0 in Hc by lia.
    replace (Init.Nat.pred (length m + 1)) with (length m + 0) in Hc by lia.
    rewrite lookup_app_r in Hc by lia.
    replace (length m + 0 - length m) with 0 in Hc by lia.
    simpl in Hc. by injection Hc as ->.
Qed.

(** The two updates on a single object: it is credited, then debited. *)
Lemma transfer_single a d :
  debit a (length [d] - 1) (credit a 0 [d])
  = [Balance.set_balance (n_sub (n_add (Balance.balance d) a) a) d].
Proof. reflexivity. Qed.

(** The two updates on an array of two or more objects. *)
Lemma transfer_ends a d m c :
  debit a (length (d :: m ++ [c]) - 1) (credit a 0 (d :: m ++ [c]))
  = Balance.set_balance (n_add (Balance.balance d) a) d
      :: m ++ [Balance.set_balance (n_sub (Balance.balance c) a) c].
Proof.
  unfold debit, credit. simpl. rewrite Nat.sub_0_r, length_app. simpl.
  replace (length m + 1) with (S (length m + 0)) by lia. simpl.
  f_equal. etrans; [apply (alter_app_r_alt _ m [c]); lia|].
  replace (length m + 0 - length m) with 0 by lia. reflexivity.
Qed.

(** The body of the loop, once the two ends are known. *)
Lemma iteration_ends st d c :
  sort (balances st) !! 0 = Some d →
  sort (balances st) !! (length (sort (balances st)) - 1) = Some c →
  iteration st =
    Ok (if settled d c
        then Break (mkLoop (sort (balances st)) (results st) (loopCount st))
        else Next (mkLoop
               (debit (transferAmount d c) (length (sort (balances st)) - 1)
                  (credit (transferAmount d c) 0 (sort (balances st))))
               (if n_gt (transferAmount d c) n_zero
                then results st ++ [Settlement.mk (Balance.id d) (Balance.id c)
                                      (transferAmount d c)]
                else results st)
               (S (loopCount st)))).
Proof.
  intros Hd Hc. unfold iteration, at_index. rewrite Hd, Hc. simpl.
  by destruct (settled d c).
Qed.

Lemma iteration_inv st s :
  iteration st = Ok s →
  ∃ d c,
    sort (balances st) !! 0 = Some d
    ∧ sort (balances st) !! (length (sort (balances st)) - 1) = Some c
    ∧ s = (if settled d c
           then Break (mkLoop (sort (balances st)) (results st) (loopCount st))
           else Next (mkLoop
                  (debit (transferAmount d c) (length (sort (balances st)) - 1)
                     (credit (transferAmount d c) 0 (sort (balances st))))
                  (if n_gt (transferAmount d c) n_zero
                   then results st ++ [Settlement.mk (Balance.id d) (Balance.id c)
                                         (transferAmount d c)]
                   else results st)
                  (S (loopCount st)))).
Proof.
  intros Hs.
  destruct (sort (balances st) !! 0) as [d|] eqn:Hd;
    [|by unfold iteration, at_index in Hs; rewrite Hd in Hs].
  destruct (sort (balances st) !! (length (sort (balances st)) - 1)) as [c|] eqn:Hc;
    [|by unfold iteration, at_index in Hs; rewrite Hd, Hc in Hs].
  exists d, c. split_and!; [done..|].
  rewrite (iteration_ends st d c Hd Hc) in Hs. by injection Hs.
Qed.

(** On a non-empty array the body does not throw. *)
Lemma iteration_total st : balances st ≠ [] → ∃ s, iteration st = Ok s.
Proof.
  intros Hne.
  destruct (ends_exist (sort (balances st)) (sort_nonempty _ Hne)) as (d & c & Hd & Hc).
  rewrite (iteration_ends st d c Hd Hc). eauto.
Qed.

Lemma iteration_Break_state st st' :
  iteration st = Ok (Break st') →
  st' = mkLoop (sort (balances st)) (results st) (loopCount st).
Proof.
  intros (d & c & _ & _ & Hs)%iteration_inv.
  destruct (settled d c); by inversion Hs.
Qed.

Lemma iteration_Next_length st st' :
  iteration st = Ok (Next st') →
  length (balances st') = length (balances st) ∧ loopCount st' = S (loopCount st).
Proof.
  intros (d & c & _ & _ & Hs)%iteration_inv.
  destruct (settled d c); inversion Hs; subst; simpl.
  unfold debit, credit. by rewrite !length_alter, length_sort.
Qed.

Lemma iteration_Next_nonempty st st' :
  iteration st = Ok (Next st') → balances st ≠ [] ∧ balances st' ≠ [].
Proof.
  intros Hs. destruct (iteration_Next_length _ _ Hs) as [Hlen _].
  apply iteration_inv in Hs as (d & c & Hd & _ & _).
  assert (length (balances st) ≠ 0) as Hn.
  { rewrite <- length_sort. apply lookup_lt_Some in Hd. lia. }
  split; intros E; rewrite E in *; simpl in *; lia.
Qed.

(** The three ways through the guard and the body. *)
Lemma while_S_inv fuel st e fin :
  while (S fuel) st = Ok (e, fin) →
  (cap ≤ loopCount st ∧ e = CapReached ∧ fin = st)
  ∨ (loopCount st < cap ∧ iteration st = Ok (Break fin) ∧ e = Settled)
  ∨ (loopCount st < cap
     ∧ ∃ st', iteration st = Ok (Next st') ∧ while fuel st' = Ok (e, fin)).
Proof.
  cbn [while]. destruct (Nat.ltb_spec (loopCount st) cap) as [Hlt|Hge].
  - destruct (iteration st) as [[st'|st']|]; simpl; [| |done].
    + intros [= <- <-]. right. by left.
    + intros Hw. right. right. split; [done|]. by exists st'.
  - intros [= <- <-]. by left.
Qed.

Lemma while_S_Next fuel st st' :
  loopCount st < cap → iteration st = Ok (Next st') →
  while (S fuel) st = while fuel st'.
Proof.
  intros Hlt%Nat.ltb_lt Hs. cbn [while]. by rewrite Hlt, Hs.
Qed.

Lemma while_S_Break fuel st st' :
  loopCount st < cap → iteration st = Ok (Break st') →
  while (S fuel) st = Ok (Settled, st').
Proof.
  intros Hlt%Nat.ltb_lt Hs. cbn [while]. by rewrite Hlt, Hs.
Qed.

Lemma while_S_cap fuel st :
  cap ≤ loopCount st → while (S fuel) st = Ok (CapReached, st).
Proof.
  intros Hge. cbn [while]. by destruct (Nat.ltb_spec (loopCount st) cap); [lia|].
Qed.

(** The loop returns on every non-empty array. *)
Lemma while_total fuel st :
  balances st ≠ [] → ∃ e fin, while fuel st = Ok (e, fin).
Proof.
  revert st. induction fuel as [|fuel IH]; intros st Hne; [by do 2 eexists|].
  destruct (Nat.lt_ge_cases (loopCount st) cap) as [Hlt|Hge];
    [|rewrite while_S_cap by done; by do 2 eexists].
  destruct (iteration_total st Hne) as [[st'|st'] Hs].
  - rewrite (while_S_Break _ _ _ Hlt Hs). by do 2 eexists.
  - rewrite (while_S_Next _ _ _ Hlt Hs). apply IH. by apply (iteration_Next_nonempty st).
Qed.

(** [loopCount] counts the passes that do not [break]; it never passes
    the cap, stays below it when the loop is left by [break], and has
    reached it when the loop is left by its guard with fuel to spare. *)
Lemma while_loopCount fuel st e fin :
  while fuel st = Ok (e, fin) →
  loopCount st ≤ loopCount fin
  ∧ (loopCount st ≤ cap → loopCount fin ≤ cap)
  ∧ (e = Settled → loopCount fin < cap)
  ∧ (e = CapReached → cap ≤ loopCount st + fuel → cap ≤ loopCount fin).
Proof.
  revert st. induction fuel as [|fuel IH]; intros st.
  - intros [= <- <-]. split_and!; [done..|lia].
  - intros [(Hge & -> & ->)|[(Hlt & Hs & ->)|(Hlt & st' & Hs & Hw)]]%while_S_inv.
    + split_and!; [done..|lia].
    + apply iteration_Break_state in Hs as ->. simpl. split_and!; [lia..|done].
    + apply IH in Hw as (Hle & Hcap & Hset & Hfuel).
      apply iteration_Next_length in Hs as [_ Hc]. rewrite Hc in *.
      split_and!; [lia|intros; apply Hcap; lia|done|intros; apply Hfuel; [done|lia]].
Qed.

(** With [cap] as fuel from [loopCount] 0, more fuel changes nothing:
    it is the guard that bounds the loop. *)
Lemma while_fuel fuel k st :
  cap ≤ loopCount st + fuel → while (fuel + k) st = while fuel st.
Proof.
  revert st. induction fuel as [|fuel IH]; intros st Hcap.
  - destruct k; [done|]. rewrite Nat.add_0_l. by rewrite while_S_cap by lia.
  - change (S fuel + k) with (S (fuel + k)).
    destruct (Nat.lt_ge_cases (loopCount st) cap) as [Hlt|Hge];
      [|by rewrite !while_S_cap].
    destruct (iteration st) as [[st'|st']|] eqn:Hs.
    + by rewrite !(while_S_Break _ _ _ Hlt Hs).
    + rewrite !(while_S_Next _ _ _ Hlt Hs). apply IH.
      apply iteration_Next_length in Hs as [_ ->]. lia.
    + cbn [while]. apply Nat.ltb_lt in Hlt. by rewrite Hlt, Hs.
Qed.

(** What a pass that does not [break] leaves behind, by the shape of
    the sorted array. *)
Lemma iteration_Next_cases st st' :
  iteration st = Ok (Next st') →
  ∃ d c,
    (sort (balances st) !! 0 = Some d
     ∧ sort (balances st) !! (length (sort (balances st)) - 1) = Some c)
    ∧ settled d c = false
    ∧ results st' =
        (if n_gt (transferAmount d c) n_zero
         then results st ++ [Settlement.mk (Balance.id d) (Balance.id c)
                               (transferAmount d c)]
         else results st)
    ∧ ((sort (balances st) = [d] ∧ c = d
        ∧ balances st' =
            [Balance.set_balance
               (n_sub (n_add (Balance.balance d) (transferAmount d c))
                  (transferAmount d c)) d])
       ∨ (∃ m, sort (balances st) = d :: m ++ [c]
          ∧ balances st' =
              Balance.set_balance
                (n_add (Balance.balance d) (transferAmount d c)) d
              :: m ++ [Balance.set_balance
                         (n_sub (Balance.balance c) (transferAmount d c)) c])).
Proof.
  intros (d & c & Hd & Hc & Hs)%iteration_inv. exists d, c.
  destruct (settled d c); [done|]. injection Hs as ->. simpl.
  split_and!; [done..|].
  destruct (ends_shape _ _ _ Hd Hc) as [[E ->]|[m E]]; rewrite E.
  - left. by rewrite transfer_single.
  - right. exists m. by rewrite transfer_ends.
Qed.

(** What a pass that does [break] has seen. *)
Lemma iteration_Break_cases st st' :
  iteration st = Ok (Break st') →
  ∃ d c,
    settled d c = true
    ∧ st' = mkLoop (sort (balances st)) (results st) (loopCount st)
    ∧ ((sort (balances st) = [d] ∧ c = d)
       ∨ (∃ m, sort (balances st) = d :: m ++ [c])).
Proof.
  intros (d & c & Hd & Hc & Hs)%iteration_inv. exists d, c.
  destruct (settled d c); [|done]. injection Hs as ->.
  split_and!; [done..|]. by apply ends_shape.
Qed.

(** The ids of the array are the same, up to order, after a pass. *)
Lemma iteration_Next_ids st st' :
  iteration st = Ok (Next st') →
  Balance.id <$> balances st' ≡ₚ Balance.id <$> balances st.
Proof.
  intros (d & c & _ & _ & _ & Hcases)%iteration_Next_cases.
  rewrite <- (sort_Permutation (balances st)).
  destruct Hcases as [(-> & _ & ->)|(m & -> & ->)]; [done|].
  by rewrite !fmap_cons, !fmap_app.
Qed.

Lemma applySettlements_Permutation ss l m :
  l ≡ₚ m → applySettlements ss l ≡ₚ applySettlements ss m.
Proof.
  revert l m. induction ss as [|s ss IH]; intros l m Hlm; simpl; [done|].
  apply IH. by apply Permutation_map.
Qed.

Lemma applyTo_other s b :
  Balance.id b ≠ Settlement.fromId s → Balance.id b ≠ Settlement.toId s →
  applyTo s b = b.
Proof.
  intros Hf Ht. unfold applyTo.
  apply String.eqb_neq in Hf, Ht. by rewrite Hf, Ht.
Qed.

(** A pass that pushes a settlement changes the array as applying that
    settlement does, provided the ids of the array are unique. *)
Lemma iteration_emit_apply st st' s :
  iteration st = Ok (Next st') →
  NoDup (Balance.id <$> balances st) →
  results st' = results st ++ [s] →
  balances st' ≡ₚ applySettlement s (balances st).
Proof.
  intros (d & c & _ & _ & Hres & Hcases)%iteration_Next_cases Hnd Hs.
  rewrite Hs in Hres.
  destruct (n_gt (transferAmount d c) n_zero).
  2:{ apply (f_equal length) in Hres. rewrite length_app in Hres. simpl in Hres. lia. }
  apply app_inj_tail in Hres as [_ ->].
  rewrite <- (sort_Permutation (balances st)) in Hnd.
  unfold applySettlement.
  rewrite <- (Permutation_map _ (sort_Permutation (balances st))).
  destruct Hcases as [(-> & -> & ->)|(m & Hsort & ->)].
  - simpl. unfold applyTo. simpl. by rewrite !String.eqb_refl.
  - rewrite Hsort in *. rewrite fmap_cons, fmap_app in Hnd. simpl in Hnd.
    apply NoDup_cons in Hnd as [Hd Hnd]. apply NoDup_app in Hnd as (_ & Hm & _).
    rewrite elem_of_app, list_elem_of_singleton in Hd.
    simpl. rewrite List.map_app. simpl.
    assert (applyTo {| Settlement.fromId := Balance.id d; Settlement.toId := Balance.id c;
                       Settlement.amount := transferAmount d c |} d
            = Balance.set_balance (n_add (Balance.balance d) (transferAmount d c)) d) as ->.
    { unfold applyTo. simpl. rewrite String.eqb_refl. simpl.
      destruct (String.eqb_spec (Balance.id d) (Balance.id c)); [|done]. tauto. }
    assert (applyTo {| Settlement.fromId := Balance.id d; Settlement.toId := Balance.id c;
                       Settlement.amount := transferAmount d c |} c
            = Balance.set_balance (n_sub (Balance.balance c) (transferAmount d c)) c) as ->.
    { unfold applyTo. simpl.
      destruct (String.eqb_spec (Balance.id c) (Balance.id d)) as [E|_]; [symmetry in E; tauto|].
      by rewrite String.eqb_refl. }
    rewrite (map_ext_in _ id), List.map_id; [done|].
    intros b Hb%list_elem_of_In. apply applyTo_other; simpl.
    + intros E. apply Hd. left. rewrite <- E. by apply list_elem_of_fmap_2.
    + intros E. apply (Hm (Balance.id b)); [by apply list_elem_of_fmap_2|].
      rewrite E. constructor.
Qed.

(** An invariant of the body holds in every state the loop reaches. *)
Lemma reaches_invariant (P : LoopState num → Prop) :
  (∀ st st', P st → iteration st = Ok (Next st') → P st') →
  ∀ st k st', reaches st k st' → P st → P st'.
Proof. intros Hstep st k st' Hr. induction Hr; eauto. Qed.

(** Every settlement of the final [results] was there from the start
    or was pushed by one of the passes of the loop. *)
Lemma while_results fuel st e fin s :
  while fuel st = Ok (e, fin) → s ∈ results fin →
  s ∈ results st
  ∨ ∃ k st1 d c, k < fuel ∧ reaches st k st1 ∧ emits st1 d c s.
Proof.
  revert st. induction fuel as [|fuel IH]; intros st.
  - intros [= <- <-]. by left.
  - intros [(Hge & -> & ->)|[(Hlt & Hs & ->)|(Hlt & st' & Hs & Hw)]]%while_S_inv.
    + by left.
    + apply iteration_Break_state in Hs as ->. by left.
    + intros Hin. destruct (IH _ Hw Hin) as [Hin'|(k & st1 & d & c & Hk & Hr & He)].
      * pose proof Hs as (d & c & Hd & Hc & Heq)%iteration_inv.
        destruct (settled d c) eqn:Hset; [done|]. injection Heq as ->.
        simpl in Hin'. destruct (n_gt (transferAmount d c) n_zero) eqn:Hgt; [|by left].
        apply elem_of_app in Hin' as [?|Hin']; [by left|].
        apply list_elem_of_singleton in Hin' as ->. right.
        exists 0, st, d, c. split_and!; [lia|constructor|done..].
      * right. exists (S k), st1, d, c. split_and!; [lia| |done].
        by econstructor.
Qed.

Lemma computeBalances_ids ps es :
  Balance.id <$> computeBalances ps es = Participant.id <$> ps.
Proof.
  unfold computeBalances. induction ps as [|p ps IH]; [done|].
  simpl. f_equal. unfold average in IH |- *.
  clear IH. generalize (n_div (totalSpent es) (n_ofNat (length (p :: ps)))).
  intros a. induction ps as [|q qs IHq]; [done|]. simpl. by f_equal.
Qed.

Lemma iteration_Next_NoDup st st' :
  iteration st = Ok (Next st') →
  NoDup (Balance.id <$> balances st) → NoDup (Balance.id <$> balances st').
Proof. intros Hs%iteration_Next_ids. by rewrite Hs. Qed.

(** With no participant the loop would read [balances[0].balance] of
    an empty array. *)
Lemma greedy_nil es : greedy [] es = TypeError.
Proof. reflexivity. Qed.

Lemma settlements_greedy ps es e fin :
  greedy ps es = Ok (e, fin) → settlements ps es = Ok (results fin).
Proof.
  intros Hg. unfold settlements. destruct ps as [|p ps].
  - by rewrite greedy_nil in Hg.
  - simpl length. cbn [Nat.eqb]. by rewrite Hg.
Qed.

Lemma emits_iteration st d c s :
  emits st d c s →
  ∃ st', iteration st = Ok (Next st') ∧ results st' = results st ++ [s].
Proof.
  intros (Hd & Hc & Hset & Hgt & ->).
  rewrite (iteration_ends st d c Hd Hc), Hset, Hgt. by eexists.
Qed.

(** Objects of an array with unique ids are equal when their ids are. *)
Lemma unique_id l b b' :
  NoDup (Balance.id <$> l) → b ∈ l → b' ∈ l → Balance.id b = Balance.id b' → b = b'.
Proof.
  induction l as [|x l IH]; [by intros _ ?%elem_of_nil|].
  rewrite fmap_cons. intros [Hx Hnd]%NoDup_cons Hb Hb' E.
  apply elem_of_cons in Hb as [->|Hb]; apply elem_of_cons in Hb' as [->|Hb']; [done|..].
  - exfalso. apply Hx. rewrite E. by apply list_elem_of_fmap_2.
  - exfalso. apply Hx. rewrite <- E. by apply list_elem_of_fmap_2.
  - by apply IH.
Qed.

Lemma computeBalances_length ps es : length (computeBalances ps es) = length ps.
Proof. unfold computeBalances. apply length_map. Qed.

(** The callback returns on every input. *)
Lemma settlements_total ps es : ∃ ss, settlements ps es = Ok ss.
Proof.
  unfold settlements, greedy. destruct ps as [|p ps]; [by eexists|].
  destruct (while_total cap (initial (p :: ps) es)) as (e & fin & Hw); [done|].
  rewrite Hw. by eexists.
Qed.

End Structure.

(** ** Exact arithmetic: facts about the [Q_Number] instance *)

Section Exact.
Local Open Scope Q_scope.
Implicit Types (st : LoopState Q) (l m : list (Balance.t Q)).
Implicit Types (a x y : Q) (d c b : Balance.t Q).
Implicit Types (ps : list Participant.t) (es : list (Expense.t Q)).

Lemma Qltb_lt x y : Qltb x y = true ↔ x < y.
Proof.
  unfold Qltb. rewrite Qlt_alt. destruct (x ?= y); split; congruence.
Qed.

Lemma Qltb_ge x y : Qltb x y = false ↔ y <= x.
Proof.
  rewrite <- not_true_iff_false, Qltb_lt. split; [apply Qnot_lt_le|apply Qle_not_lt].
Qed.

Lemma q_sub x y : n_sub x y == x - y.
Proof. apply Qred_correct. Qed.

Lemma q_div x y : n_div x y == x / y.
Proof. apply Qred_correct. Qed.

Lemma q_gt_zero x : n_gt x n_zero = true ↔ 0 < x.
Proof. apply Qltb_lt. Qed.

Lemma q_gt_zero_false x : n_gt x n_zero = false ↔ x <= 0.
Proof. apply Qltb_ge. Qed.

Lemma q_min_cases x y : (x < y ∧ n_min x y == x) ∨ (y <= x ∧ n_min x y == y).
Proof. apply Q.min_spec. Qed.

Lemma q_abs_cases x : (0 <= x ∧ n_abs x == x) ∨ (x < 0 ∧ n_abs x == - x).
Proof.
  destruct (Qlt_le_dec x 0) as [Hx|Hx]; [right|left]; split; auto.
  - apply Qabs_neg. by apply Qlt_le_weak.
  - by apply Qabs_pos.
Qed.

(** The test of the [break]: both ends strictly within one unit of zero. *)
Lemma settled_true d c :
  settled d c = true ↔
  (-1 < Balance.balance d ∧ Balance.balance d < 1)
  ∧ (-1 < Balance.balance c ∧ Balance.balance c < 1).
Proof.
  unfold settled. rewrite andb_true_iff. cbn [n_lt n_abs n_one Q_Number].
  rewrite !Qltb_lt.
  split.
  - intros [Hd Hc]. apply Qabs_Qlt_condition in Hd, Hc. tauto.
  - intros [Hd Hc]. split; apply Qabs_Qlt_condition; tauto.
Qed.

(** *** Sorting *)

Lemma insert_Forall_below d b l :
  below d b → Forall (below d) l → Forall (below d) (insert b l).
Proof. intros Hb Hl. rewrite insert_Permutation. by constructor. Qed.

Lemma insert_sorted b l : StronglySorted below l → StronglySorted below (insert b l).
Proof.
  induction 1 as [|x l Hl IH Hx].
  - repeat constructor.
  - change (insert b (x :: l))
      with (if n_gt (comparator b x) n_zero then x :: insert b l else b :: x :: l).
    destruct (n_gt (comparator b x) n_zero) eqn:Hcmp; unfold comparator in Hcmp.
    + apply q_gt_zero in Hcmp. rewrite q_sub in Hcmp.
      constructor; [done|]. apply insert_Forall_below; [|done].
      unfold below. lra.
    + apply q_gt_zero_false in Hcmp. rewrite q_sub in Hcmp.
      assert (below b x) as Hbx by (unfold below; lra).
      constructor; [by constructor|]. constructor; [done|].
      eapply Forall_impl; [exact Hx|]. unfold below in *. intros; lra.
Qed.

(** The sort returns the array in ascending order of balance. *)
Lemma sort_sorted l : StronglySorted below (sort l).
Proof.
  induction l as [|b l IH]; simpl; [constructor|]. by apply insert_sorted.
Qed.

(** The first object of the sorted array has the smallest balance of
    the array and the last one the largest. *)
Lemma ends_bounds l d c :
  sort l !! 0%nat = Some d → sort l !! (length (sort l) - 1)%nat = Some c →
  ∀ b, b ∈ l → below d b ∧ below b c.
Proof.
  intros Hd Hc b Hb. rewrite <- (sort_Permutation l) in Hb.
  pose proof (sort_sorted l) as Hs.
  destruct (ends_shape _ _ _ Hd Hc) as [[E ->]|[m E]]; rewrite E in Hb, Hs.
  - apply list_elem_of_singleton in Hb as ->. unfold below; lra.
  - apply StronglySorted_inv in Hs as [Hs Hall].
    rewrite Forall_forall in Hall.
    apply elem_of_cons in Hb as [->|Hb].
    + split; [unfold below; lra|]. apply Hall, elem_of_app. right. constructor.
    + split; [by apply Hall|].
      apply elem_of_app in Hb as [Hb|Hb].
      * by apply (StronglySorted_app_1_elem_of _ m [c]); [|  |constructor].
      * apply list_elem_of_singleton in Hb as ->. unfold below; lra.
Qed.

Lemma shape_bounds l d c :
  (sort l = [d] ∧ c = d) ∨ (∃ m, sort l = d :: m ++ [c]) →
  d ∈ l ∧ c ∈ l ∧ ∀ b, b ∈ l → below d b ∧ below b c.
Proof.
  intros Hshape.
  assert (sort l !! 0%nat = Some d ∧ sort l !! (length (sort l) - 1)%nat = Some c)
    as [Hd Hc].
  { destruct Hshape as [[-> ->]|[m ->]]; [done|]. split; [done|].
    simpl. rewrite length_app, Nat.sub_0_r. simpl.
    replace (length m + 1)%nat with (S (length m + 0)) by lia. simpl.
    by rewrite lookup_app_r, Nat.add_0_r, Nat.sub_diag by lia. }
  split_and!; [| |by apply ends_bounds].
  - rewrite <- (sort_Permutation l). by eapply list_elem_of_lookup_2.
  - rewrite <- (sort_Permutation l). by eapply list_elem_of_lookup_2.
Qed.

(** *** Sums *)

Lemma Qsum_app xs ys : Qsum (xs ++ ys) == Qsum xs + Qsum ys.
Proof. induction xs as [|x xs IH]; simpl; [lra|]. rewrite IH. lra. Qed.

Lemma Qsum_Permutation xs ys : xs ≡ₚ ys → Qsum xs == Qsum ys.
Proof. induction 1; simpl; lra. Qed.

Lemma sumBalances_Permutation l m : l ≡ₚ m → sumBalances l == sumBalances m.
Proof. intros H. apply Qsum_Permutation. by apply Permutation_map. Qed.

Lemma fold_amounts es x :
  fold_left (fun sum e => n_add sum (Expense.amount e)) es x
  == x + Qsum (List.map Expense.amount es).
Proof.
  revert x. induction es as [|e es IH]; intros x; simpl; [lra|].
  rewrite IH, Qred_correct. lra.
Qed.

Lemma sumAmounts_Qsum es : sumAmounts es == Qsum (List.map Expense.amount es).
Proof. unfold sumAmounts. rewrite fold_amounts. cbn [n_zero Q_Number]. lra. Qed.

Lemma sumAmounts_cons e es :
  sumAmounts (e :: es) == Expense.amount e + sumAmounts es.
Proof. rewrite !sumAmounts_Qsum. reflexivity. Qed.

Lemma sumAmounts_app es1 es2 :
  sumAmounts (es1 ++ es2) == sumAmounts es1 + sumAmounts es2.
Proof. rewrite !sumAmounts_Qsum, List.map_app. apply Qsum_app. Qed.

(** What one more expense adds to a participant's [paid]. *)
Lemma paid_cons p e es :
  paid p (e :: es)
  == (if String.eqb (Expense.payerId e) (Participant.id p)
      then Expense.amount e else 0) + paid p es.
Proof.
  unfold paid. simpl.
  destruct (String.eqb _ _); [apply sumAmounts_cons|lra].
Qed.

(** With unique ids, at most one participant is the payer of [e]. *)
Lemma payer_unique ps (e : Expense.t Q) :
  NoDup (Participant.id <$> ps) →
  Qsum (List.map (fun p => if String.eqb (Expense.payerId e) (Participant.id p)
                  then Expense.amount e else 0) ps)
  == (if attributed ps e then Expense.amount e else 0).
Proof.
  induction ps as [|p ps IH]; simpl; [reflexivity|].
  intros [Hp Hnd]%NoDup_cons. specialize (IH Hnd).
  destruct (String.eqb_spec (Expense.payerId e) (Participant.id p)) as [E|_]; simpl.
  - assert (attributed ps e = false) as Hno.
    { apply not_true_iff_false. intros (q & Hq & Heq)%existsb_exists.
      apply String.eqb_eq in Heq. apply Hp. rewrite <- E, Heq.
      apply list_elem_of_fmap. exists q. split; [done|]. by apply list_elem_of_In. }
    rewrite Hno in IH. rewrite IH. lra.
  - rewrite IH. lra.
Qed.

Lemma sumPaid_cons ps e es :
  NoDup (Participant.id <$> ps) →
  sumPaid ps (e :: es)
  == (if attributed ps e then Expense.amount e else 0) + sumPaid ps es.
Proof.
  intros Hnd. rewrite <- (payer_unique ps e Hnd). unfold sumPaid.
  clear Hnd. induction ps as [|p ps IH]; simpl; [lra|].
  rewrite IH, paid_cons. lra.
Qed.

(** With unique ids, the participants have paid, together, the total
    less the amounts that name no participant. *)
Lemma sumPaid_total ps es :
  NoDup (Participant.id <$> ps) →
  sumPaid ps es == totalSpent es - sumAmounts (unattributed ps es).
Proof.
  intros Hnd. unfold totalSpent. induction es as [|e es IH].
  - unfold sumPaid, unattributed, paid. simpl.
    induction ps as [|p ps IHp]; simpl; [reflexivity|].
    apply NoDup_cons in Hnd as [_ Hnd]. rewrite (IHp Hnd). reflexivity.
  - rewrite (sumPaid_cons _ _ _ Hnd), IH, sumAmounts_cons.
    unfold unattributed. simpl.
    destruct (attributed ps e); simpl; [lra|].
    rewrite sumAmounts_cons. lra.
Qed.

Lemma sumBalances_computeBalances ps es :
  ps ≠ [] →
  sumBalances (computeBalances ps es) == sumPaid ps es - totalSpent es.
Proof.
  intros Hne. unfold sumBalances, computeBalances, sumPaid.
  assert (∀ avg qs,
    Qsum (List.map Balance.balance
            (List.map (fun p => Balance.mk (Participant.id p) (Participant.name p)
                                  (paid p es) (n_sub (paid p es) avg)) qs))
    == Qsum (List.map (fun p => paid p es) qs)
       - inject_Z (Z.of_nat (length qs)) * avg) as Hgen.
  { intros avg qs. induction qs as [|q qs IH].
    - cbn [List.map Qsum length]. change (inject_Z (Z.of_nat 0)) with 0. lra.
    - cbn [List.map Qsum length Balance.balance].
      rewrite IH, q_sub, Nat2Z.inj_succ, <- Z.add_1_r, inject_Z_plus.
      change (inject_Z 1) with 1. lra. }
  rewrite Hgen. unfold average. rewrite q_div. cbn [n_ofNat Q_Number].
  assert (~ inject_Z (Z.of_nat (length ps)) == 0) as Hn.
  { destruct ps; [done|]. simpl length. rewrite Nat2Z.inj_succ.
    unfold Qeq. simpl. lia. }
  field_simplify_eq; [lra|done].
Qed.

(** The balances add up to minus what was spent on behalf of no
    participant. *)
Lemma sumBalances_initial ps es :
  ps ≠ [] → NoDup (Participant.id <$> ps) →
  sumBalances (computeBalances ps es) == - sumAmounts (unattributed ps es).
Proof.
  intros Hne Hnd.
  rewrite (sumBalances_computeBalances _ _ Hne), (sumPaid_total _ _ Hnd). lra.
Qed.

(** *** One pass of the loop, in exact arithmetic *)

Lemma settled_inBand d c : settled d c = true ↔ inBand d ∧ inBand c.
Proof.
  rewrite settled_true. unfold inBand. split.
  - intros [[? ?] [? ?]]. split; apply Qabs_Qlt_condition; split; lra.
  - intros [Hd Hc]. apply Qabs_Qlt_condition in Hd, Hc.
    destruct Hd, Hc. repeat split; lra.
Qed.

(** A pass that does not [break]: the debtor [d] has the smallest and
    the creditor [c] the largest balance, they are not both within the
    band, and the amount [a] moves from the one to the other. *)
Lemma pass_view st st' :
  iteration st = Ok (Next st') →
  ∃ d c a,
    a = transferAmount d c
    ∧ d ∈ balances st ∧ c ∈ balances st
    ∧ (∀ b, b ∈ balances st → below d b ∧ below b c)
    ∧ ¬ (inBand d ∧ inBand c)
    ∧ (∀ s, results st' = results st ++ [s] → emits st d c s)
    ∧ results st' =
        (if n_gt a n_zero
         then results st ++ [Settlement.mk (Balance.id d) (Balance.id c) a]
         else results st)
    ∧ ((balances st ≡ₚ [d] ∧ c = d
        ∧ ∃ d', balances st' = [d'] ∧ Balance.balance d' == Balance.balance d)
       ∨ (∃ m d' c',
            balances st ≡ₚ d :: m ++ [c]
            ∧ balances st' = d' :: m ++ [c']
            ∧ Balance.balance d' == Balance.balance d + a
            ∧ Balance.balance c' == Balance.balance c - a)).
Proof.
  intros (d & c & [Hld Hlc] & Hset & Hres & Hcases)%iteration_Next_cases.
  exists d, c, (transferAmount d c).
  assert ((sort (balances st) = [d] ∧ c = d)
          ∨ (∃ m, sort (balances st) = d :: m ++ [c])) as Hshape.
  { destruct Hcases as [(? & ? & _)|(m & ? & _)]; [by left|right; by exists m]. }
  destruct (shape_bounds _ _ _ Hshape) as (Hd & Hc & Hb).
  split_and!; [done..| | |done|].
  - rewrite <- settled_inBand. by rewrite Hset.
  - intros s Hs. rewrite Hs in Hres. unfold emits.
    destruct (n_gt (transferAmount d c) n_zero) eqn:Hgt.
    + by apply app_inj_tail in Hres as [_ ->].
    + apply (f_equal length) in Hres. rewrite length_app in Hres. simpl in Hres. lia.
  - destruct Hcases as [(Hs & -> & ->)|(m & Hs & ->)]; [left|right].
    + split_and!; [by rewrite <- Hs, sort_Permutation|done|].
      eexists. split; [done|]. simpl. rewrite !Qred_correct. lra.
    + exists m. do 2 eexists.
      split_and!; [by rewrite <- Hs, sort_Permutation|done|..]; simpl;
        apply Qred_correct.
Qed.

(** What a pass that does [break] has seen: every balance is within the
    band. *)
Lemma break_view st st' :
  iteration st = Ok (Break st') →
  results st' = results st
  ∧ balances st' ≡ₚ balances st
  ∧ Forall inBand (balances st).
Proof.
  intros (d & c & Hset & -> & Hshape)%iteration_Break_cases. simpl.
  split_and!; [done|apply sort_Permutation|].
  destruct (shape_bounds _ _ _ Hshape) as (_ & _ & Hb).
  apply settled_true in Hset.
  apply Forall_forall. intros b [Hdb Hbc]%Hb. unfold below in *.
  apply Qabs_Qlt_condition. split; lra.
Qed.

Lemma sumBalances_app l m : sumBalances (l ++ m) == sumBalances l + sumBalances m.
Proof. unfold sumBalances. rewrite List.map_app. apply Qsum_app. Qed.

(** A pass keeps the sum of the balances. *)
Lemma iteration_Next_sum st st' :
  iteration st = Ok (Next st') →
  sumBalances (balances st') == sumBalances (balances st).
Proof.
  intros (d & c & a & _ & _ & _ & _ & _ & _ & _ & Hcases)%pass_view.
  destruct Hcases as [(Hp & _ & d' & -> & Hd')|(m & d' & c' & Hp & -> & Hd' & Hc')];
    rewrite (sumBalances_Permutation _ _ Hp).
  - unfold sumBalances. simpl. lra.
  - change (d' :: m ++ [c']) with ([d'] ++ m ++ [c']).
    change (d :: m ++ [c]) with ([d] ++ m ++ [c]).
    rewrite !sumBalances_app. unfold sumBalances at 1 3 4 6. simpl. lra.
Qed.

(** On an array that is all within the band the pass does [break]. *)
Lemma inBand_break st :
  balances st ≠ [] → Forall inBand (balances st) →
  iteration st = Ok (Break (mkLoop (sort (balances st)) (results st) (loopCount st))).
Proof.
  intros Hne Hall.
  destruct (ends_exist (sort (balances st)) (sort_nonempty _ Hne)) as (d & c & Hd & Hc).
  rewrite (iteration_ends st d c Hd Hc).
  assert (settled d c = true) as ->; [|done].
  rewrite Forall_forall in Hall.
  apply settled_inBand. split; apply Hall; rewrite <- (sort_Permutation (balances st));
    by eapply list_elem_of_lookup_2.
Qed.

(** *** Arrays on which the loop is stuck *)

Lemma transferAmount_cases d c :
  (Qabs (Balance.balance d) < Balance.balance c
   ∧ transferAmount d c == Qabs (Balance.balance d))
  ∨ (Balance.balance c <= Qabs (Balance.balance d)
     ∧ transferAmount d c == Balance.balance c).
Proof. apply q_min_cases. Qed.

Lemma results_unchanged (ss : list (Settlement.t Q)) s : ss ++ [s] ≠ ss.
Proof.
  intros E. apply (f_equal length) in E. rewrite length_app in E. simpl in E. lia.
Qed.

(** A pass that pushes nothing and does not [break] starts from a stuck
    array. *)
Lemma not_emitting_stuck st st' :
  iteration st = Ok (Next st') → results st' = results st → stuck (balances st).
Proof.
  intros (d & c & a & -> & Hd & Hc & Hb & Hband & _ & Hres & _)%pass_view Hsame.
  rewrite Hsame in Hres.
  destruct (n_gt (transferAmount d c) n_zero) eqn:Hgt;
    [by symmetry in Hres; apply results_unchanged in Hres|].
  apply q_gt_zero_false in Hgt. unfold inBand in Hband.
  destruct (Hb c Hc) as [Hdc _]. unfold below in Hdc.
  destruct (transferAmount_cases d c) as [[Hlt Ha]|[Hle Ha]];
    destruct (q_abs_cases (Balance.balance d)) as [[Hsgn Habs]|[Hsgn Habs]];
    cbn [n_abs Q_Number] in Habs; try lra.
  - right. split_and!.
    + apply Forall_forall. intros b [Hdb _]%Hb. unfold below in Hdb. lra.
    + apply Exists_exists. exists d. split; [done|lra].
    + apply Exists_exists. exists c. split; [done|].
      destruct (Qlt_le_dec (Balance.balance c) 1) as [Hc1|]; [|done].
      exfalso. apply Hband. split; apply Qabs_Qlt_condition; split; lra.
  - left. split.
    + apply Forall_forall. intros b [_ Hbc]%Hb. unfold below in Hbc. lra.
    + apply Exists_exists. exists d. split; [done|].
      destruct (Qlt_le_dec (-1) (Balance.balance d)) as [Hd1|]; [|done].
      exfalso. apply Hband. split; apply Qabs_Qlt_condition; split; lra.
  - left. split.
    + apply Forall_forall. intros b [_ Hbc]%Hb. unfold below in Hbc. lra.
    + apply Exists_exists. exists d. split; [done|].
      destruct (Qlt_le_dec (-1) (Balance.balance d)) as [Hd1|]; [|done].
      exfalso. apply Hband. split; apply Qabs_Qlt_condition; split; lra.
Qed.

Lemma stuck_nonempty l : stuck l → l ≠ [].
Proof. intros [[_ H]|(_ & H & _)] ->; inversion H. Qed.

Lemma stuck_not_inBand l : stuck l → ¬ Forall inBand l.
Proof.
  intros Hst Hall. rewrite Forall_forall in Hall. unfold inBand in Hall.
  destruct Hst as [[_ (b & Hb & Hlow)%Exists_exists]|(_ & _ & (b & Hb & Hhigh)%Exists_exists)];
    apply Hall, Qabs_Qlt_condition in Hb; lra.
Qed.

(** On a stuck array a pass pushes nothing and leaves a stuck array. *)
Lemma stuck_pass st :
  stuck (balances st) →
  ∃ st', iteration st = Ok (Next st') ∧ results st' = results st ∧ stuck (balances st').
Proof.
  intros Hst.
  destruct (iteration_total st (stuck_nonempty _ Hst)) as [[st'|st'] Hs].
  { apply break_view in Hs as (_ & _ & Hall). by apply stuck_not_inBand in Hst. }
  exists st'. split; [done|].
  apply pass_view in Hs as (d & c & a & -> & Hd & Hc & Hb & _ & _ & Hres & Hcases).
  assert (∀ m b, balances st ≡ₚ d :: m ++ [c] → b ∈ m → b ∈ balances st) as Hin.
  { intros m b -> Hbm. apply elem_of_cons. right. apply elem_of_app. by left. }
  destruct (transferAmount_cases d c) as [[Hlt Ha]|[Hle Ha]];
    destruct (q_abs_cases (Balance.balance d)) as [[Hsgn Habs]|[Hsgn Habs]];
    cbn [n_abs Q_Number] in Habs;
    (destruct Hst as [[Hall (x & Hx & Hlow)%Exists_exists]
                     |(Hall & (z & Hz & Hzero)%Exists_exists
                            & (x & Hx & Hhigh)%Exists_exists)]);
    rewrite Forall_forall in Hall;
    pose proof (Hall d Hd) as Hd0; pose proof (Hall c Hc) as Hc0;
    pose proof (Hb x Hx) as [Hdx Hxc]; pose proof (Hb c Hc) as [Hdc _];
    try (pose proof (Hb z Hz) as [Hdz Hzc]); unfold below in *; try lra.
  all: (assert (transferAmount d c <= 0) as Hgt by lra);
    apply q_gt_zero_false in Hgt; rewrite Hgt in Hres; (split; [done|]).
  all: destruct Hcases as [(_ & -> & d' & -> & Hd')|(m & d' & c' & Hp & -> & Hd' & Hc')];
    try lra.
  - right. split_and!.
    + apply Forall_forall. intros b.
      rewrite elem_of_cons, elem_of_app, list_elem_of_singleton.
      intros [->|[Hbm| ->]]; [lra| |lra]. by apply Hall, (Hin m).
    + apply Exists_exists. exists d'. split; [constructor|lra].
    + apply Exists_exists. exists c'. split; [|lra].
      apply elem_of_cons. right. apply elem_of_app. right. constructor.
  - left. split.
    + apply Forall_forall. intros b Hbd. apply list_elem_of_singleton in Hbd as ->. lra.
    + apply Exists_exists. exists d'. split; [constructor|lra].
  - left. split.
    + apply Forall_forall. intros b.
      rewrite elem_of_cons, elem_of_app, list_elem_of_singleton.
      intros [->|[Hbm| ->]]; [lra| |lra]. by apply Hall, (Hin m).
    + apply Exists_exists. exists d'. split; [constructor|lra].
Qed.

(** From a stuck array the loop runs to the cap and pushes nothing. *)
Lemma stuck_while fuel st e fin :
  stuck (balances st) → while fuel st = Ok (e, fin) →
  e = CapReached ∧ results fin = results st.
Proof.
  revert st. induction fuel as [|fuel IH]; intros st Hst.
  - by intros [= <- <-].
  - destruct (stuck_pass st Hst) as (st' & Hs & Hres & Hst').
    intros [(Hge & -> & ->)|[(Hlt & Hs' & ->)|(Hlt & st1 & Hs' & Hw)]]%while_S_inv;
      [done|congruence|].
    assert (st1 = st') as -> by congruence. rewrite <- Hres. by apply IH.
Qed.

(** *** Runs that settle *)

(** A run that leaves the loop by [break] has pushed a settlement in
    every pass; the final array is the initial one with the new
    settlements applied, and all of it is within the band. *)
Lemma while_settled_applied fuel st fin :
  while fuel st = Ok (Settled, fin) →
  NoDup (Balance.id <$> balances st) →
  ∃ new,
    results fin = results st ++ new
    ∧ balances fin ≡ₚ applySettlements new (balances st)
    ∧ Forall inBand (balances fin).
Proof.
  revert st. induction fuel as [|fuel IH]; intros st; [done|].
  intros Hwhile. pose proof Hwhile
    as [(_ & ? & _)|[(Hlt & Hs & _)|(Hlt & st' & Hs & Hw)]]%while_S_inv; [done| |].
  - intros _. apply break_view in Hs as (Hres & Hp & Hall).
    exists []. split_and!; [by rewrite app_nil_r|done|by rewrite Hp].
  - intros Hnd.
    destruct (IH _ Hw (iteration_Next_NoDup _ _ Hs Hnd)) as (new & Hres & Hp & Hall).
    pose proof Hs as (d & c & a & _ & _ & _ & _ & _ & _ & Hr & _)%pass_view.
    destruct (n_gt a n_zero).
    + exists (Settlement.mk (Balance.id d) (Balance.id c) a :: new).
      split_and!; [by rewrite Hres, Hr, <- app_assoc| |done].
      rewrite Hp. simpl. apply applySettlements_Permutation.
      by apply iteration_emit_apply.
    + apply (not_emitting_stuck _ _ Hs) in Hr.
      by destruct (stuck_while (S fuel) st Settled fin Hr Hwhile) as [? _].
Qed.

(** *** Counting the balances that are not zero *)

Lemma nonzero_cons b l :
  nonzero (b :: l)
  = ((if Qeq_bool (Balance.balance b) 0 then 0 else 1) + nonzero l)%nat.
Proof. unfold nonzero. simpl. by destruct (Qeq_bool _ _). Qed.

Lemma nonzero_app l m : nonzero (l ++ m) = (nonzero l + nonzero m)%nat.
Proof. unfold nonzero. by rewrite List.filter_app, length_app. Qed.

Lemma nonzero_Permutation l m : l ≡ₚ m → nonzero l = nonzero m.
Proof.
  induction 1 as [|b l m _ IH|b b' l|l m k _ IH1 _ IH2];
    rewrite ?nonzero_cons; lia.
Qed.

Lemma nonzero_le_length l : (nonzero l <= length l)%nat.
Proof.
  induction l as [|b l IH]; [done|]. rewrite nonzero_cons. simpl.
  destruct (Qeq_bool _ _); lia.
Qed.

Lemma nonzero_one b : ¬ Balance.balance b == 0 → nonzero [b] = 1%nat.
Proof.
  intros Hb. rewrite nonzero_cons.
  destruct (Qeq_bool _ _) eqn:E; [by apply Qeq_bool_eq in E|done].
Qed.

Lemma nonzero_zero b : Balance.balance b == 0 → nonzero [b] = 0%nat.
Proof.
  intros Hb. rewrite nonzero_cons. by rewrite (Qeq_eq_bool _ _ Hb).
Qed.

Lemma nonzero_single_le b : (nonzero [b] <= 1)%nat.
Proof. apply (nonzero_le_length [b]). Qed.

(** *** Arrays whose balances add up to at most zero *)

Lemma sumBalances_pos l :
  l ≠ [] → (∀ b, b ∈ l → 0 < Balance.balance b) → 0 < sumBalances l.
Proof.
  induction l as [|b l IH]; [done|]. intros _ Hall.
  assert (0 < Balance.balance b) by (apply Hall; constructor).
  destruct l as [|b' l].
  - unfold sumBalances. simpl. lra.
  - assert (0 < sumBalances (b' :: l)) as Hl.
    { apply IH; [done|]. intros x Hx. apply Hall. by constructor. }
    unfold sumBalances in *. simpl in *. lra.
Qed.

(** The smallest of balances that add up to at most zero is at most
    zero. *)
Lemma smallest_nonpositive l d :
  d ∈ l → (∀ b, b ∈ l → below d b) → sumBalances l <= 0 → Balance.balance d <= 0.
Proof.
  intros Hd Hmin Hsum. apply Qnot_lt_le. intros Hpos.
  assert (0 < sumBalances l); [|lra].
  apply sumBalances_pos; [by intros ->; inversion Hd|].
  intros b Hb%Hmin. unfold below in Hb. lra.
Qed.

(** A pass that pushes a settlement, on balances that add up to at most
    zero: the debtor owes, the creditor is owed, and one balance more is
    zero afterwards. *)
Lemma emitting_pass st st' s :
  iteration st = Ok (Next st') →
  sumBalances (balances st) <= 0 →
  results st' = results st ++ [s] →
  ∃ d c,
    emits st d c s
    ∧ d ∈ balances st ∧ c ∈ balances st
    ∧ Balance.balance d < 0 ∧ 0 < Balance.balance c
    ∧ 0 < Settlement.amount s
    ∧ (nonzero (balances st') + 1 <= nonzero (balances st))%nat
    ∧ (2 <= nonzero (balances st))%nat.
Proof.
  intros (d & c & a & -> & Hd & Hc & Hb & _ & Hem & Hres & Hcases)%pass_view Hsum Hs.
  specialize (Hem s Hs). exists d, c.
  pose proof Hem as (_ & _ & _ & Hgt & ->). simpl.
  apply q_gt_zero in Hgt.
  assert (Balance.balance d <= 0) as Hd0.
  { apply (smallest_nonpositive (balances st)); [done| |done]. intros b Hbl. by apply Hb. }
  assert (Balance.balance d < 0 ∧ 0 < Balance.balance c
          ∧ (transferAmount d c == - Balance.balance d
             ∨ transferAmount d c == Balance.balance c)) as (Hdn & Hcp & Ha).
  { destruct (transferAmount_cases d c) as [[Hlt Ha]|[Hle Ha]];
      destruct (q_abs_cases (Balance.balance d)) as [[Hsgn Habs]|[Hsgn Habs]];
      cbn [n_abs Q_Number] in Habs; split_and!; try lra; (left + right); lra. }
  split_and!; [done..| |].
  - destruct Hcases as [(_ & -> & _)|(m & d' & c' & Hp & -> & Hd' & Hc')]; [lra|].
    rewrite (nonzero_Permutation _ _ Hp).
    change (d' :: m ++ [c']) with ([d'] ++ m ++ [c']).
    change (d :: m ++ [c]) with ([d] ++ m ++ [c]).
    rewrite !nonzero_app, (nonzero_one d), (nonzero_one c) by lra.
    pose proof (nonzero_single_le d'). pose proof (nonzero_single_le c').
    destruct Ha as [Ha|Ha].
    + rewrite (nonzero_zero d') by lra. lia.
    + rewrite (nonzero_zero c') by lra. lia.
  - destruct Hcases as [(_ & -> & _)|(m & d' & c' & Hp & _)]; [lra|].
    rewrite (nonzero_Permutation _ _ Hp).
    change (d :: m ++ [c]) with ([d] ++ m ++ [c]).
    rewrite !nonzero_app, (nonzero_one d), (nonzero_one c) by lra. lia.
Qed.

(** On balances that add up to at most zero, the loop pushes fewer
    settlements than there are balances other than zero. *)
Lemma while_emitted_bound fuel st e fin :
  sumBalances (balances st) <= 0 →
  while fuel st = Ok (e, fin) →
  ∃ new,
    results fin = results st ++ new
    ∧ (new = [] ∨ (length new + 1 <= nonzero (balances st))%nat).
Proof.
  revert st. induction fuel as [|fuel IH]; intros st Hsum.
  { intros [= <- <-]. exists []. split; [by rewrite app_nil_r|by left]. }
  intros Hwhile. pose proof Hwhile
    as [(_ & _ & ->)|[(Hlt & Hs & _)|(Hlt & st' & Hs & Hw)]]%while_S_inv.
  { exists []. split; [by rewrite app_nil_r|by left]. }
  { apply iteration_Break_state in Hs as ->. simpl.
    exists []. split; [by rewrite app_nil_r|by left]. }
  assert (sumBalances (balances st') <= 0) as Hsum'
    by (rewrite (iteration_Next_sum _ _ Hs); done).
  destruct (IH _ Hsum' Hw) as (new & Hres & Hlen).
  pose proof Hs as (d & c & a & _ & _ & _ & _ & _ & _ & Hr & _)%pass_view.
  destruct (n_gt a n_zero).
  - destruct (emitting_pass _ _ _ Hs Hsum Hr) as (_ & _ & _ & _ & _ & _ & _ & Hdec & Htwo).
    eexists (_ :: new). split; [by rewrite Hres, Hr, <- app_assoc|].
    right. simpl. destruct Hlen as [->|Hlen]; simpl; lia.
  - apply (not_emitting_stuck _ _ Hs) in Hr.
    destruct (stuck_while (S fuel) st e fin Hr Hwhile) as [_ Hsame].
    exists []. split; [by rewrite app_nil_r|by left].
Qed.

Lemma sumAmounts_nonneg es :
  Forall (fun e => 0 < Expense.amount e) es → 0 <= sumAmounts es.
Proof.
  induction 1 as [|e es He _ IH]; [done|]. rewrite sumAmounts_cons. lra.
Qed.

(** On a well-formed input the balances add up to at most zero. *)
Lemma wellFormed_sum ps es :
  ps ≠ [] → wellFormed ps es → sumBalances (computeBalances ps es) <= 0.
Proof.
  intros Hne [Hnd Hpos]. rewrite (sumBalances_initial _ _ Hne Hnd).
  assert (0 <= sumAmounts (unattributed ps es)); [|lra].
  apply sumAmounts_nonneg. unfold unattributed.
  apply List.Forall_forall. intros e [He _]%List.filter_In.
  rewrite List.Forall_forall in Hpos. by apply Hpos.
Qed.

(** *** The states the loop reaches on a well-formed input *)

Lemma reaches_wellFormed ps es k st :
  ps ≠ [] → wellFormed ps es → reaches (initial ps es) k st →
  sumBalances (balances st) <= 0
  ∧ NoDup (Balance.id <$> balances st)
  ∧ Balance.id <$> balances st ≡ₚ Participant.id <$> ps.
Proof.
  intros Hne Hwf Hr.
  apply (reaches_invariant
           (fun st => sumBalances (balances st) <= 0
                      ∧ NoDup (Balance.id <$> balances st)
                      ∧ Balance.id <$> balances st ≡ₚ Participant.id <$> ps)
           ) with (st := initial ps es) (k := k); [|done|].
  - intros st1 st2 (Hsum & Hnd & Hids) Hs. split_and!.
    + by rewrite (iteration_Next_sum _ _ Hs).
    + by apply (iteration_Next_NoDup st1).
    + by rewrite (iteration_Next_ids _ _ Hs).
  - simpl. rewrite computeBalances_ids. split_and!; [|by destruct Hwf|done].
    by apply wellFormed_sum.
Qed.

(** Every settlement the callback returns on a well-formed input was
    pushed in a pass of the loop in which the debtor owed and the
    creditor was owed. *)
Lemma emitted_settlement ps es ss s :
  wellFormed ps es → settlements ps es = Ok ss → s ∈ ss →
  ∃ k st d c,
    (k < cap)%nat ∧ reaches (initial ps es) k st ∧ emits st d c s
    ∧ d ∈ balances st ∧ c ∈ balances st
    ∧ Balance.balance d < 0 ∧ 0 < Balance.balance c
    ∧ 0 < Settlement.amount s
    ∧ NoDup (Balance.id <$> balances st)
    ∧ Balance.id <$> balances st ≡ₚ Participant.id <$> ps.
Proof.
  intros Hwf Hss Hs. destruct ps as [|p ps].
  { injection Hss as <-. by apply elem_of_nil in Hs. }
  destruct (while_total cap (initial (p :: ps) es)) as (e & fin & Hw); [done|].
  rewrite (settlements_greedy _ _ e fin Hw) in Hss. injection Hss as <-.
  destruct (while_results _ _ _ _ _ Hw Hs) as [Hin|(k & st & d0 & c0 & Hk & Hr & Hem)].
  { by apply elem_of_nil in Hin. }
  assert (p :: ps ≠ []) as Hne by done.
  destruct (reaches_wellFormed _ _ _ _ Hne Hwf Hr) as (Hsum & Hnd & Hids).
  destruct (emits_iteration _ _ _ _ Hem) as (st' & Hit & Hres).
  destruct (emitting_pass _ _ _ Hit Hsum Hres) as (d & c & ? & ? & ? & ? & ? & ? & _).
  exists k, st, d, c. by split_and!.
Qed.

(** *** Runs on balances that add up to zero *)

Lemma sumBalances_bound l (x : Q) :
  (∀ b, b ∈ l → Balance.balance b <= 0) → (∃ b, b ∈ l ∧ Balance.balance b <= x) →
  sumBalances l <= x.
Proof.
  induction l as [|b l IH]; intros Hall (b0 & Hb0 & Hx); [by apply elem_of_nil in Hb0|].
  assert (∀ b', b' ∈ l → Balance.balance b' <= 0) as Hl
    by (intros b' Hb'; apply Hall; by constructor).
  assert (sumBalances l <= 0) as Hsum0.
  { clear -Hl. induction l as [|b' l IH]; [unfold sumBalances; simpl; lra|].
    assert (Balance.balance b' <= 0) by (apply Hl; constructor).
    assert (sumBalances l <= 0) by (apply IH; intros; apply Hl; by constructor).
    unfold sumBalances in *. simpl. lra. }
  assert (Balance.balance b <= 0) by (apply Hall; constructor).
  apply elem_of_cons in Hb0 as [->|Hb0].
  - unfold sumBalances in *. simpl. lra.
  - assert (sumBalances l <= x) by (apply IH; [done|by exists b0]).
    unfold sumBalances in *. simpl. lra.
Qed.

Lemma sumBalances_bound_pos l (x : Q) :
  (∀ b, b ∈ l → 0 <= Balance.balance b) → (∃ b, b ∈ l ∧ x <= Balance.balance b) →
  x <= sumBalances l.
Proof.
  induction l as [|b l IH]; intros Hall (b0 & Hb0 & Hx); [by apply elem_of_nil in Hb0|].
  assert (∀ b', b' ∈ l → 0 <= Balance.balance b') as Hl
    by (intros b' Hb'; apply Hall; by constructor).
  assert (0 <= sumBalances l) as Hsum0.
  { clear -Hl. induction l as [|b' l IH]; [unfold sumBalances; simpl; lra|].
    assert (0 <= Balance.balance b') by (apply Hl; constructor).
    assert (0 <= sumBalances l) by (apply IH; intros; apply Hl; by constructor).
    unfold sumBalances in *. simpl. lra. }
  assert (0 <= Balance.balance b) by (apply Hall; constructor).
  apply elem_of_cons in Hb0 as [->|Hb0].
  - unfold sumBalances in *. simpl. lra.
  - assert (x <= sumBalances l) by (apply IH; [done|by exists b0]).
    unfold sumBalances in *. simpl. lra.
Qed.

(** Balances that add up to zero are never stuck. *)
Lemma zero_sum_not_stuck l : sumBalances l == 0 → ¬ stuck l.
Proof.
  intros Hsum [[Hall Hex]|(Hall & _ & Hex)];
    rewrite Forall_forall in Hall; apply Exists_exists in Hex.
  - pose proof (sumBalances_bound l (-1) Hall Hex). lra.
  - pose proof (sumBalances_bound_pos l 1 Hall Hex). lra.
Qed.

(** With balances that add up to zero, the loop is left by [break]
    after as many passes as there are balances other than zero, at
    most. *)
Lemma while_settles fuel st :
  sumBalances (balances st) == 0 → balances st ≠ [] →
  (1 <= fuel)%nat → (nonzero (balances st) <= fuel)%nat →
  (loopCount st + fuel <= cap)%nat →
  ∃ fin, while fuel st = Ok (Settled, fin).
Proof.
  revert st. induction fuel as [|fuel IH]; intros st Hsum Hne Hone Hnz Hcap; [lia|].
  assert (loopCount st < cap)%nat as Hlt by lia.
  destruct (iteration_total st Hne) as [[st'|st'] Hs].
  { rewrite (while_S_Break _ _ _ Hlt Hs). by eexists. }
  rewrite (while_S_Next _ _ _ Hlt Hs).
  pose proof Hs as (d & c & a & _ & _ & _ & _ & _ & _ & Hr & _)%pass_view.
  destruct (n_gt a n_zero).
  - destruct (emitting_pass _ _ _ Hs ltac:(lra) Hr) as (_ & _ & _ & _ & _ & _ & _ & Hdec & Htwo).
    pose proof (iteration_Next_length _ _ Hs) as [_ Hcount].
    apply IH; [|by apply (iteration_Next_nonempty st)|lia..].
    by rewrite (iteration_Next_sum _ _ Hs).
  - apply (not_emitting_stuck _ _ Hs) in Hr. by apply zero_sum_not_stuck in Hr.
Qed.

End Exact.

(** ** The properties of the specification *)

Section Properties.
Local Open Scope Q_scope.
Implicit Types (ps : list Participant.t) (es : list (Expense.t Q)).

(** C1 (settlement correctness).  When the ids of the participants are
    unique and the loop is left by its [break], the callback returns the
    settlements the loop pushed, and applying them, in order, to the
    initial balances (the amount added to the balance of [fromId] and
    subtracted from the balance of [toId]) leaves every balance
    strictly within one unit of zero. *)
Theorem settlement_correctness ps es fin :
  NoDup (Participant.id <$> ps) →
  greedy ps es = Ok (Settled, fin) →
  settlements ps es = Ok (results fin)
  ∧ Forall inBand (applySettlements (results fin) (computeBalances ps es)).
Proof.
  intros Hnd Hg. split; [by eapply settlements_greedy|].
  unfold greedy in Hg. apply while_settled_applied in Hg as (new & Hres & Hp & Hall).
  - simpl in Hres. subst new. by rewrite <- Hp.
  - simpl. by rewrite computeBalances_ids.
Qed.

Lemma settlement_correctness_witness :
  ∃ fin : LoopState Q,
    greedy [alice; bob; carol] [dinner] = Ok (Settled, fin)
    ∧ settlements [alice; bob; carol] [dinner] = Ok (results fin)
    ∧ Forall inBand
        (applySettlements (results fin) (computeBalances [alice; bob; carol] [dinner])).
Proof.
  eexists. split; [vm_compute; reflexivity|].
  apply (settlement_correctness [alice; bob; carol] [dinner]).
  - refine (bool_decide_unpack _ _). vm_compute. exact I.
  - vm_compute. reflexivity.
Defined.






(** C4 (balance conservation), as the code has it.  For a non-empty
    list of participants with unique ids, the balances [paid - average]
    add up to minus the total of the expenses whose [payerId] is the id
    of no participant; they add up to zero when every expense names a
    participant. *)
Theorem balance_conservation ps es :
  ps ≠ [] → NoDup (Participant.id <$> ps) →
  sumBalances (computeBalances ps es) == - sumAmounts (unattributed ps es)
  ∧ ((∀ e, e ∈ es → Expense.payerId e ∈ Participant.id <$> ps) →
     sumBalances (computeBalances ps es) == 0).
Proof.
  intros Hne Hnd. split; [by apply sumBalances_initial|].
  intros Hall. rewrite (sumBalances_initial _ _ Hne Hnd).
  assert (unattributed ps es = []) as ->; [|reflexivity].
  unfold unattributed. induction es as [|e es IH]; [done|]. simpl.
  assert (attributed ps e = true) as ->.
  { assert (Expense.payerId e ∈ Participant.id <$> ps) as (p & Hp & Hin)%list_elem_of_fmap
      by (apply Hall; constructor).
    apply existsb_exists. exists p. split; [by apply list_elem_of_In|].
    by apply String.eqb_eq. }
  simpl. apply IH. intros e' He'. apply Hall. by constructor.
Qed.

Lemma balance_conservation_witness :
  sumBalances (computeBalances [alice; bob] [dinner; orphan]) == - (100)
  ∧ sumBalances (computeBalances [alice; bob; carol] [dinner]) == 0.
Proof.
  split.
  - destruct (balance_conservation [alice; bob] [dinner; orphan]) as [Hsum _];
      [done|refine (bool_decide_unpack _ _); vm_compute; exact I|].
    rewrite Hsum. reflexivity.
  - destruct (balance_conservation [alice; bob; carol] [dinner]) as [_ Hzero];
      [done|refine (bool_decide_unpack _ _); vm_compute; exact I|].
    apply Hzero. intros e ->%list_elem_of_singleton. simpl. constructor.
Defined.

(** C4 as the specification states it fails: with two participants and
    one expense of 100 whose payer is no participant, both balances are
    -50 and add up to -100. *)
Lemma balance_conservation_counterexample :
  (Balance.balance <$> computeBalances [alice; bob] [orphan]) = [- (50); - (50)]
  ∧ ¬ sumBalances (computeBalances [alice; bob] [orphan]) == 0
  ∧ (Balance.balance <$> computeBalances [alice; bob] [orphan])
    = [(-50)%float; (-50)%float].
Proof. split_and!; [reflexivity| |reflexivity]. vm_compute. discriminate. Qed.




(** C6 (three-party chain).  With participants A, B and C, in this
    order, and the one expense "A pays 90", the callback returns two
    transfers of 30, from B to A and from C to A, which total 60; in
    exact arithmetic and in binary64. *)
Theorem three_party (a b c na nb nc eid : string) (desc : option string) :
  a ≠ b → a ≠ c →
  settlements [Participant.mk a na; Participant.mk b nb; Participant.mk c nc]
    [Expense.mk eid a 90 desc]
  = Ok [Settlement.mk b a 30; Settlement.mk c a 30]
  ∧ settlements [Participant.mk a na; Participant.mk b nb; Participant.mk c nc]
      [Expense.mk eid a 90%float desc]
    = Ok [Settlement.mk b a 30%float; Settlement.mk c a 30%float]
  ∧ Qsum (List.map Settlement.amount [Settlement.mk b a 30; Settlement.mk c a 30]) == 60.
Proof.
  intros Hab Hac. apply String.eqb_neq in Hab, Hac.
  split_and!; [| |reflexivity].
  - unfold settlements, greedy, initial, computeBalances, paid. simpl.
    rewrite String.eqb_refl, Hab, Hac. vm_compute. reflexivity.
  - unfold settlements, greedy, initial, computeBalances, paid. simpl.
    rewrite String.eqb_refl, Hab, Hac. vm_compute. reflexivity.
Qed.

Lemma three_party_witness :
  settlements [alice; bob; carol] [dinner]
  = Ok [Settlement.mk "2" "1" 30; Settlement.mk "3" "1" 30]
  ∧ settlements [alice; bob; carol] [dinner]
    = Ok [Settlement.mk "2" "1" 30%float; Settlement.mk "3" "1" 30%float]
  ∧ Qsum (List.map Settlement.amount [Settlement.mk "2" "1" 30; Settlement.mk "3" "1" 30])
    == 60.
Proof. apply (three_party "1" "2" "3" "A" "B" "C" "e1" None); discriminate. Defined.

(** C7 (dangling payer).  An expense [e] whose [payerId] is the id of no
    participant adds its amount to [totalSpent], and its share of it to
    the average, but changes no participant's [paid]; and the callback
    returns a list. *)
Theorem dangling_payer ps es1 e es2 :
  (∀ p, p ∈ ps → Participant.id p ≠ Expense.payerId e) →
  totalSpent (es1 ++ e :: es2) == totalSpent (es1 ++ es2) + Expense.amount e
  ∧ (ps ≠ [] →
     average ps (es1 ++ e :: es2)
     == average ps (es1 ++ es2)
        + Expense.amount e / inject_Z (Z.of_nat (length ps)))
  ∧ (∀ p, p ∈ ps → paid p (es1 ++ e :: es2) = paid p (es1 ++ es2))
  ∧ ∃ ss, settlements ps (es1 ++ e :: es2) = Ok ss.
Proof.
  intros Hno.
  assert (totalSpent (es1 ++ e :: es2) == totalSpent (es1 ++ es2) + Expense.amount e)
    as Htotal.
  { unfold totalSpent. rewrite !sumAmounts_app, sumAmounts_cons. lra. }
  split_and!; [done| | |apply settlements_total].
  - intros Hne. unfold average. rewrite !q_div, Htotal. cbn [n_ofNat Q_Number].
    unfold Qdiv. lra.
  - intros p Hp. unfold paid. rewrite !List.filter_app. simpl.
    destruct (String.eqb_spec (Expense.payerId e) (Participant.id p)) as [E|_]; [|done].
    by destruct (Hno p Hp).
Qed.

Lemma dangling_payer_witness :
  totalSpent ([dinner] ++ orphan :: []) == totalSpent ([dinner] ++ []) + 100
  ∧ average [alice; bob] ([dinner] ++ orphan :: []) == average [alice; bob] ([dinner] ++ []) + 50
  ∧ (paid alice ([dinner] ++ orphan :: []) : Q) = paid alice ([dinner] ++ [])
  ∧ ∃ ss : list (Settlement.t Q), settlements [alice; bob] ([dinner] ++ orphan :: []) = Ok ss.
Proof.
  destruct (dangling_payer [alice; bob] [dinner] orphan [])
    as (Htotal & Havg & Hpaid & Hret).
  - intros p [->|[->|[]%elem_of_nil]%elem_of_cons]%elem_of_cons; discriminate.
  - split_and!; [exact Htotal| |apply Hpaid; constructor|exact Hret].
    rewrite Havg by done. reflexivity.
Defined.

(** C8 (empty inputs).  Without participants the callback returns the
    empty list at once, whatever the expenses and the numbers are;
    without expenses every balance is zero and the callback returns the
    empty list; and where the average is computed, that is with
    participants, its divisor is not zero. *)
Theorem empty_inputs :
  (∀ (num : Type) (N : Number num) (es : list (Expense.t num)),
     settlements [] es = Ok [])
  ∧ (∀ ps,
       Forall (fun b : Balance.t Q => Balance.balance b == 0) (computeBalances ps [])
       ∧ settlements ps ([] : list (Expense.t Q)) = Ok [])
  ∧ (∀ ps, ps ≠ [] → ¬ (n_ofNat (length ps) : Q) == 0).
Proof.
  split_and!.
  - done.
  - intros ps.
    assert (Forall (fun b : Balance.t Q => Balance.balance b == 0) (computeBalances ps []))
      as Hzero.
    { unfold computeBalances. apply List.Forall_forall.
      intros b (p & <- & _)%List.in_map_iff. simpl.
      unfold average, totalSpent, paid, sumAmounts. simpl.
      rewrite !Qred_correct. unfold Qdiv. lra. }
    split; [done|]. destruct ps as [|p ps]; [done|].
    unfold settlements, greedy. simpl length. cbn [Nat.eqb].
    assert (Forall inBand (balances (initial (p :: ps) ([] : list (Expense.t Q))))) as Hband.
    { simpl. eapply Forall_impl; [exact Hzero|].
      intros b Hb. unfold inBand. rewrite Hb. reflexivity. }
    assert (loopCount (initial (p :: ps) ([] : list (Expense.t Q))) < cap)%nat as Hlt
      by (unfold cap; simpl; lia).
    assert (balances (initial (p :: ps) ([] : list (Expense.t Q))) ≠ []) as Hne by done.
    change cap with (S 99) at 1.
    by rewrite (while_S_Break 99 _ _ Hlt (inBand_break _ Hne Hband)).
  - intros ps Hne. destruct ps as [|p ps]; [done|].
    cbn [n_ofNat Q_Number]. simpl length. rewrite Nat2Z.inj_succ.
    unfold Qeq. simpl. lia.
Qed.

(** C9 (termination).  Whatever the numbers are, the callback returns;
    the loop makes at most [cap = 100] passes: [loopCount], which counts
    the passes that do not [break], is at most 100, and below 100 when
    the loop is left by [break]; it is the guard [loopCount < 100] that
    bounds the loop, as more fuel than [cap] changes nothing.  The cap
    is what ends the loop on an input whose balances never come within
    the band: two participants and one expense of 100 paid by nobody
    among them, in binary64 and in exact arithmetic. *)
Theorem loop_bounded :
  cap = 100%nat
  ∧ (∀ (num : Type) (N : Number num) (ps : list Participant.t)
       (es : list (Expense.t num)),
       (∀ k, while (cap + k) (initial ps es) = greedy ps es)
       ∧ ∃ ss, settlements ps es = Ok ss
           ∧ ((ps = [] ∧ ss = [])
              ∨ ∃ e fin, greedy ps es = Ok (e, fin) ∧ ss = results fin
                  ∧ (loopCount fin <= cap)%nat
                  ∧ (e = Settled → (loopCount fin < cap)%nat)
                  ∧ (e = CapReached → loopCount fin = cap)))
  ∧ (∃ fin : LoopState float,
       greedy [alice; bob] [orphan] = Ok (CapReached, fin) ∧ loopCount fin = cap)
  ∧ (∃ fin : LoopState Q,
       greedy [alice; bob] [orphan] = Ok (CapReached, fin) ∧ loopCount fin = cap).
Proof.
  split_and!; [done| | |].
  - intros num N ps es. split; [intros k; by apply while_fuel|].
    destruct ps as [|p ps].
    { exists []. split; [done|by left]. }
    destruct (while_total cap (initial (p :: ps) es)) as (e & fin & Hw); [done|].
    exists (results fin). split; [by apply (settlements_greedy _ _ e)|].
    right. exists e, fin.
    destruct (while_loopCount _ _ _ _ Hw) as (_ & Hle & Hset & Hcap).
    simpl in *. split_and!; [done..|lia|done|].
    intros He. specialize (Hcap He). lia.
  - eexists. split; [vm_compute; reflexivity|reflexivity].
  - eexists. split; [vm_compute; reflexivity|reflexivity].
Qed.

(** C10 (the ids of a settlement).  On an input of the interface (unique
    ids, positive amounts), every settlement the callback returns goes
    from one participant of the input to a different participant of the
    input; with a single participant the callback returns no
    settlement. *)
Theorem settlement_ids ps es ss :
  wellFormed ps es → settlements ps es = Ok ss →
  (∀ s, s ∈ ss →
     Settlement.fromId s ≠ Settlement.toId s
     ∧ Settlement.fromId s ∈ Participant.id <$> ps
     ∧ Settlement.toId s ∈ Participant.id <$> ps)
  ∧ (length ps = 1%nat → ss = []).
Proof.
  intros Hwf Hss. split.
  - intros s Hs.
    destruct (emitted_settlement _ _ _ _ Hwf Hss Hs)
      as (k & st & d & c & _ & _ & Hem & Hd & Hc & Hdn & Hcp & _ & Hnd & Hids).
    destruct Hem as (_ & _ & _ & _ & ->). simpl. split_and!.
    + intros E. assert (d = c) as -> by by apply (unique_id (balances st)). lra.
    + rewrite <- Hids. by apply list_elem_of_fmap_2.
    + rewrite <- Hids. by apply list_elem_of_fmap_2.
  - intros Hone. destruct ps as [|p ps]; [done|].
    destruct (while_total cap (initial (p :: ps) es)) as (e & fin & Hw); [done|].
    rewrite (settlements_greedy _ _ e fin Hw) in Hss. injection Hss as <-.
    destruct (while_emitted_bound cap (initial (p :: ps) es) e fin) as (new & Hres & Hlen);
      [by apply wellFormed_sum|done|].
    simpl in Hres. rewrite Hres. destruct Hlen as [->|Hlen]; [done|].
    pose proof (nonzero_le_length (computeBalances (p :: ps) es)) as Hnz.
    rewrite computeBalances_length in Hnz.
    change (balances (initial (p :: ps) es)) with (computeBalances (p :: ps) es) in Hlen.
    destruct new; [done|]. simpl in Hlen. lia.
Qed.

Lemma settlement_ids_witness :
  (∀ s : Settlement.t Q,
     s ∈ [Settlement.mk "2" "1" 30; Settlement.mk "3" "1" 30] →
     Settlement.fromId s ≠ Settlement.toId s
     ∧ Settlement.fromId s ∈ Participant.id <$> [alice; bob; carol]
     ∧ Settlement.toId s ∈ Participant.id <$> [alice; bob; carol])
  ∧ settlements [alice] [dinner; orphan] = Ok ([] : list (Settlement.t Q)).
Proof.
  split.
  - apply (settlement_ids [alice; bob; carol] [dinner]).
    + split; [refine (bool_decide_unpack _ _); vm_compute; exact I|].
      repeat constructor.
    + vm_compute. reflexivity.
  - destruct (settlements_total [alice] ([dinner; orphan] : list (Expense.t Q)))
      as [ss Hss].
    rewrite Hss. f_equal.
    apply (settlement_ids [alice] [dinner; orphan] ss); [|done..].
    split; [refine (bool_decide_unpack _ _); vm_compute; exact I|].
    repeat constructor.
Defined.

(** ** Further properties *)

(** Example (simple two-party).  With participants A and B and the one
    expense "A pays 100", the callback returns the one transfer of 50
    from B to A; in exact arithmetic and in binary64. *)
Theorem two_party (a b na nb eid : string) (desc : option string) :
  a ≠ b →
  settlements [Participant.mk a na; Participant.mk b nb] [Expense.mk eid a 100 desc]
  = Ok [Settlement.mk b a 50]
  ∧ settlements [Participant.mk a na; Participant.mk b nb]
      [Expense.mk eid a 100%float desc]
    = Ok [Settlement.mk b a 50%float].
Proof.
  intros Hab%String.eqb_neq. split.
  - unfold settlements, greedy, initial, computeBalances, paid. simpl.
    rewrite String.eqb_refl, Hab. vm_compute. reflexivity.
  - unfold settlements, greedy, initial, computeBalances, paid. simpl.
    rewrite String.eqb_refl, Hab. vm_compute. reflexivity.
Qed.

Lemma two_party_witness :
  settlements [alice; bob] [Expense.mk "e" "1" 100 None]
  = Ok [Settlement.mk "2" "1" 50]
  ∧ settlements [alice; bob] [Expense.mk "e" "1" 100%float None]
    = Ok [Settlement.mk "2" "1" 50%float].
Proof. apply (two_party "1" "2" "A" "B" "e" None). discriminate. Defined.

(** Example (already balanced).  With participants A and B who have paid 100
    each, the callback returns no transfer; in exact arithmetic and in
    binary64. *)
Theorem already_balanced (a b na nb e1 e2 : string) (d1 d2 : option string) :
  a ≠ b →
  settlements [Participant.mk a na; Participant.mk b nb]
    [Expense.mk e1 a 100 d1; Expense.mk e2 b 100 d2]
  = Ok ([] : list (Settlement.t Q))
  ∧ settlements [Participant.mk a na; Participant.mk b nb]
      [Expense.mk e1 a 100%float d1; Expense.mk e2 b 100%float d2]
    = Ok ([] : list (Settlement.t float)).
Proof.
  intros Hab%String.eqb_neq.
  assert (String.eqb b a = false) as Hba by (by rewrite String.eqb_sym).
  split.
  - unfold settlements, greedy, initial, computeBalances, paid. simpl.
    rewrite !String.eqb_refl, Hab, Hba. vm_compute. reflexivity.
  - unfold settlements, greedy, initial, computeBalances, paid. simpl.
    rewrite !String.eqb_refl, Hab, Hba. vm_compute. reflexivity.
Qed.

Lemma already_balanced_witness :
  settlements [alice; bob] [Expense.mk "e" "1" 100 None; Expense.mk "f" "2" 100 None]
  = Ok ([] : list (Settlement.t Q))
  ∧ settlements [alice; bob]
      [Expense.mk "e" "1" 100%float None; Expense.mk "f" "2" 100%float None]
    = Ok ([] : list (Settlement.t float)).
Proof. apply (already_balanced "1" "2" "A" "B" "e" "f" None None). discriminate. Defined.

(** X1 (convergence).  In exact arithmetic, with at most 100
    participants, unique ids and every expense paid by a participant,
    the loop is left by its [break]: the cap is not reached. *)
Theorem greedy_settles ps es :
  ps ≠ [] → NoDup (Participant.id <$> ps) →
  (∀ e, e ∈ es → Expense.payerId e ∈ Participant.id <$> ps) →
  (length ps <= cap)%nat →
  ∃ fin, greedy ps es = Ok (Settled, fin).
Proof.
  intros Hne Hnd Hall Hlen. unfold greedy. apply while_settles; simpl; [| | | |done].
  - rewrite (sumBalances_initial _ _ Hne Hnd).
    assert (unattributed ps es = []) as ->; [|reflexivity].
    unfold unattributed. induction es as [|e es IH]; [done|]. simpl.
    assert (attributed ps e = true) as ->.
    { assert (Expense.payerId e ∈ Participant.id <$> ps) as (p & Hp & Hin)%list_elem_of_fmap
        by (apply Hall; constructor).
      apply existsb_exists. exists p. split; [by apply list_elem_of_In|].
      by apply String.eqb_eq. }
    simpl. apply IH. intros e' He'. apply Hall. by constructor.
  - intros E. apply (f_equal length) in E. rewrite computeBalances_length in E.
    destruct ps; [done|simpl in E; lia].
  - unfold cap. lia.
  - pose proof (nonzero_le_length (computeBalances ps es)) as Hnz.
    rewrite computeBalances_length in Hnz. lia.
Qed.

Lemma greedy_settles_witness :
  ∃ fin : LoopState Q, greedy [alice; bob; carol] [dinner] = Ok (Settled, fin).
Proof.
  apply greedy_settles.
  - done.
  - refine (bool_decide_unpack _ _). vm_compute. exact I.
  - intros e ->%list_elem_of_singleton. simpl. constructor.
  - unfold cap. simpl. lia.
Defined.



(** Example (unique ids are needed).  With two participants registered under
    one id, the loop settles, but the settlements it returns, applied by
    id to the initial balances, leave a balance of 1, outside the
    band. *)
Theorem duplicate_ids_misapplied :
  ∃ fin,
    greedy [alice; twin; carol] [lunch] = Ok (Settled, fin)
    ∧ results fin = [Settlement.mk "1" "3" 1; Settlement.mk "1" "3" 1]
    ∧ (Balance.balance
         <$> applySettlements (results fin) (computeBalances [alice; twin; carol] [lunch]))
      = [1; 1; 0]
    ∧ ¬ Forall inBand
          (applySettlements (results fin) (computeBalances [alice; twin; carol] [lunch])).
Proof.
  eexists. split; [vm_compute; reflexivity|]. split_and!; [reflexivity..|].
  intros [H _]%Forall_cons. vm_compute in H. discriminate.
Qed.

(** Example (positive amounts are needed).  With an amount of -5 that names
    no participant, a single participant has a balance of 5 and the loop
    pushes a transfer of 5 from that participant to that participant in
    each of its 100 passes. *)
Theorem negative_amount_self_transfer :
  settlements [alice] [refund] = Ok (replicate 100 (Settlement.mk "1" "1" 5)).
Proof. vm_compute. reflexivity. Qed.

End Properties.

(** ** More about the settlement computation *)

Section Signs.
Local Open Scope Q_scope.
Implicit Types (st : LoopState Q) (l m : list (Balance.t Q)).
Implicit Types (d c b : Balance.t Q).
Implicit Types (ps : list Participant.t) (es : list (Expense.t Q)).

(** As long as nobody is owed anything, no settlement is pushed. *)
Lemma nobody_owed_results fuel st e fin :
  Forall (fun b => Balance.balance b <= 0) (balances st) →
  while fuel st = Ok (e, fin) → results fin = results st.
Proof.
  intros Hall. destruct fuel as [|fuel]; [by intros [= <- <-]|].
  intros Hwhile. pose proof Hwhile
    as [(_ & _ & ->)|[(_ & Hs & _)|(_ & st' & Hs & _)]]%while_S_inv; [done| |].
  - by apply break_view in Hs as (-> & _).
  - assert (stuck (balances st)) as Hst; [|by apply (stuck_while _ _ _ _ Hst Hwhile)].
    left. split; [done|].
    apply pass_view in Hs as (d & c & a & _ & Hd & Hc & Hb & Hband & _).
    rewrite Forall_forall in Hall.
    pose proof (Hall d Hd). pose proof (Hall c Hc).
    destruct (Hb c Hc) as [Hdc _]. unfold below in Hdc.
    apply Exists_exists. exists d. split; [done|].
    destruct (Qlt_le_dec (-1) (Balance.balance d)) as [Hd1|]; [|done].
    exfalso. apply Hband. unfold inBand. split; apply Qabs_Qlt_condition; split; lra.
Qed.

(** When the balances add up to at most zero, are not all within the
    band and somebody is owed something, the pass pushes a settlement. *)
Lemma pass_pushes st :
  sumBalances (balances st) <= 0 → balances st ≠ [] →
  ¬ Forall inBand (balances st) →
  ¬ Forall (fun b => Balance.balance b <= 0) (balances st) →
  ∃ st' s, iteration st = Ok (Next st') ∧ results st' = results st ++ [s].
Proof.
  intros Hsum Hne Hband Hpos.
  destruct (iteration_total st Hne) as [[st'|st'] Hs].
  { by apply break_view in Hs as (_ & _ & ?). }
  exists st'.
  pose proof Hs as (d & c & a & _ & _ & _ & _ & _ & _ & Hr & _)%pass_view.
  destruct (n_gt a n_zero); [by eexists|].
  apply (not_emitting_stuck _ _ Hs) in Hr as [[Hall _]|(Hall & _ & Hex)]; [done|].
  rewrite Forall_forall in Hall. apply Exists_exists in Hex.
  pose proof (sumBalances_bound_pos _ 1 Hall Hex). lra.
Qed.

Lemma inBand_dec l : {Forall inBand l} + {¬ Forall inBand l}.
Proof.
  apply List.Forall_dec. intros b. unfold inBand.
  destruct (Qlt_le_dec (Qabs (Balance.balance b)) 1); [by left|right; lra].
Qed.

Lemma nobody_owed_dec l :
  {Forall (fun b => Balance.balance b <= 0) l}
  + {¬ Forall (fun b => Balance.balance b <= 0) l}.
Proof.
  apply List.Forall_dec. intros b.
  destruct (Qlt_le_dec 0 (Balance.balance b)); [right; lra|by left].
Qed.

(** A balance of [computeBalances] is that of a participant. *)
Lemma computeBalances_elem ps es b :
  b ∈ computeBalances ps es →
  ∃ p, p ∈ ps ∧ Balance.id b = Participant.id p
       ∧ Balance.balance b == paid p es - average ps es.
Proof.
  unfold computeBalances. intros (p & <- & Hp)%list_elem_of_In%List.in_map_iff.
  exists p. split_and!; [by apply list_elem_of_In|done|apply Qred_correct].
Qed.

Lemma computeBalances_of ps es p :
  p ∈ ps →
  ∃ b, b ∈ computeBalances ps es ∧ Balance.id b = Participant.id p
       ∧ Balance.balance b == paid p es - average ps es.
Proof.
  intros Hp. eexists. split_and!.
  - unfold computeBalances. apply list_elem_of_In, List.in_map.
    apply list_elem_of_In, Hp.
  - done.
  - apply Qred_correct.
Qed.

(** The sign of a balance never flips: a balance that is negative
    (positive) after a pass was negative (positive) before it. *)
Lemma pass_signs st st' :
  iteration st = Ok (Next st') → sumBalances (balances st) <= 0 →
  ∀ b', b' ∈ balances st' →
    ∃ b, b ∈ balances st ∧ Balance.id b = Balance.id b'
         ∧ (Balance.balance b' < 0 → Balance.balance b < 0)
         ∧ (0 < Balance.balance b' → 0 < Balance.balance b).
Proof.
  intros Hs Hsum b' Hb'.
  apply iteration_Next_cases in Hs as (d & c & _ & _ & _ & Hcases).
  assert ((sort (balances st) = [d] ∧ c = d)
          ∨ (∃ m, sort (balances st) = d :: m ++ [c])) as Hshape.
  { destruct Hcases as [(? & ? & _)|(m & ? & _)]; [by left|right; by exists m]. }
  destruct (shape_bounds _ _ _ Hshape) as (Hd & Hc & Hb).
  assert (Balance.balance d <= 0) as Hd0.
  { apply (smallest_nonpositive (balances st)); [done| |done]. intros b Hbl. by apply Hb. }
  destruct (Hb c Hc) as [Hdc _]. unfold below in Hdc.
  destruct Hcases as [(_ & -> & Hst')|(m & Hsort & Hst')]; rewrite Hst' in Hb'.
  - apply list_elem_of_singleton in Hb' as ->. exists d. simpl.
    rewrite !Qred_correct. split_and!; [done..| |]; intros; lra.
  - apply elem_of_cons in Hb' as [->|Hb'];
      [|apply elem_of_app in Hb' as [Hb'| ->%list_elem_of_singleton]].
    + exists d. simpl. rewrite Qred_correct. split_and!; [done..| |]; intros Hsgn;
        destruct (transferAmount_cases d c) as [[Hlt Ha]|[Hle Ha]];
        destruct (q_abs_cases (Balance.balance d)) as [[? Habs]|[? Habs]];
        unfold transferAmount in Ha; cbn [n_min n_abs Q_Number] in Ha, Habs; lra.
    + exists b'. split_and!; [|done..].
      rewrite <- (sort_Permutation (balances st)), Hsort.
      apply elem_of_cons. right. apply elem_of_app. by left.
    + exists c. simpl. rewrite Qred_correct. split_and!; [done..| |]; intros Hsgn;
        destruct (transferAmount_cases d c) as [[Hlt Ha]|[Hle Ha]];
        destruct (q_abs_cases (Balance.balance d)) as [[? Habs]|[? Habs]];
        unfold transferAmount in Ha; cbn [n_min n_abs Q_Number] in Ha, Habs; lra.
Qed.

(** In every state the loop reaches on a well-formed input, a negative
    (positive) balance belongs to a participant whose initial balance
    was negative (positive). *)
Lemma reaches_signs ps es k st :
  ps ≠ [] → wellFormed ps es → reaches (initial ps es) k st →
  ∀ b, b ∈ balances st →
    ∃ b0, b0 ∈ computeBalances ps es ∧ Balance.id b0 = Balance.id b
          ∧ (Balance.balance b < 0 → Balance.balance b0 < 0)
          ∧ (0 < Balance.balance b → 0 < Balance.balance b0).
Proof.
  intros Hne Hwf Hr.
  assert (sumBalances (balances st) <= 0
          ∧ ∀ b, b ∈ balances st →
              ∃ b0, b0 ∈ computeBalances ps es ∧ Balance.id b0 = Balance.id b
                    ∧ (Balance.balance b < 0 → Balance.balance b0 < 0)
                    ∧ (0 < Balance.balance b → 0 < Balance.balance b0)) as [_ H]; [|done].
  apply (reaches_invariant
           (fun st => sumBalances (balances st) <= 0
              ∧ ∀ b, b ∈ balances st →
                  ∃ b0, b0 ∈ computeBalances ps es ∧ Balance.id b0 = Balance.id b
                        ∧ (Balance.balance b < 0 → Balance.balance b0 < 0)
                        ∧ (0 < Balance.balance b → 0 < Balance.balance b0)))
    with (st := initial ps es) (k := k); [|done|].
  - intros st1 st2 [Hsum Hinv] Hs. split; [by rewrite (iteration_Next_sum _ _ Hs)|].
    intros b2 Hb2.
    destruct (pass_signs _ _ Hs Hsum b2 Hb2) as (b1 & Hb1 & Hid & Hneg & Hpos).
    destruct (Hinv b1 Hb1) as (b0 & Hb0 & Hid0 & Hneg0 & Hpos0).
    exists b0. split_and!; [done|congruence|tauto..].
  - split; [by apply wellFormed_sum|]. intros b Hb. exists b. by split_and!.
Qed.

End Signs.

Section CoreProperties.
Local Open Scope Q_scope.
Implicit Types (ps : list Participant.t) (es : list (Expense.t Q)).

(** X3 (who pays whom).  In exact arithmetic, on an input of the
    interface (unique ids, positive amounts), every settlement the
    callback returns goes from a participant who has paid less than the
    average to a participant who has paid more than the average; so no
    participant is sender of one settlement and receiver of another. *)
Theorem senders_paid_less ps es ss :
  wellFormed ps es → settlements ps es = Ok ss →
  (∀ s, s ∈ ss →
     ∃ p q, p ∈ ps ∧ q ∈ ps
       ∧ Participant.id p = Settlement.fromId s ∧ Participant.id q = Settlement.toId s
       ∧ paid p es < average ps es ∧ average ps es < paid q es)
  ∧ (∀ s s', s ∈ ss → s' ∈ ss → Settlement.fromId s ≠ Settlement.toId s').
Proof.
  intros Hwf Hss.
  assert (∀ s, s ∈ ss →
     ∃ p q, p ∈ ps ∧ q ∈ ps
       ∧ Participant.id p = Settlement.fromId s ∧ Participant.id q = Settlement.toId s
       ∧ paid p es < average ps es ∧ average ps es < paid q es) as Hparties.
  { intros s Hs.
    destruct (emitted_settlement _ _ _ _ Hwf Hss Hs)
      as (k & st & d & c & _ & Hr & Hem & Hd & Hc & Hdn & Hcp & _).
    assert (ps ≠ []) as Hne by (intros ->; injection Hss as <-; by apply elem_of_nil in Hs).
    destruct (reaches_signs _ _ _ _ Hne Hwf Hr d Hd) as (d0 & Hd0 & Hidd & Hnegd & _).
    destruct (reaches_signs _ _ _ _ Hne Hwf Hr c Hc) as (c0 & Hc0 & Hidc & _ & Hposc).
    destruct (computeBalances_elem _ _ _ Hd0) as (p & Hp & Hidp & Hbp).
    destruct (computeBalances_elem _ _ _ Hc0) as (q & Hq & Hidq & Hbq).
    destruct Hem as (_ & _ & _ & _ & ->). cbn [Settlement.fromId Settlement.toId].
    specialize (Hnegd Hdn). specialize (Hposc Hcp).
    exists p, q. split_and!; [done..|congruence|congruence|lra|lra]. }
  split; [done|].
  intros s s' (p & _ & Hp & _ & Hidp & _ & Hlt & _)%Hparties
              (_ & q & _ & Hq & _ & Hidq & _ & Hgt)%Hparties E.
  assert (p = q) as ->; [|lra].
  destruct Hwf as [Hnd _]. clear -Hnd Hp Hq Hidp Hidq E.
  assert (Participant.id p = Participant.id q) as Hid by congruence.
  clear Hidp Hidq E. induction ps as [|x ps IH]; [by apply elem_of_nil in Hp|].
  rewrite fmap_cons in Hnd. apply NoDup_cons in Hnd as [Hx Hnd].
  apply elem_of_cons in Hp as [->|Hp]; apply elem_of_cons in Hq as [->|Hq]; [done|..].
  - exfalso. apply Hx. rewrite Hid. by apply list_elem_of_fmap_2.
  - exfalso. apply Hx. rewrite <- Hid. by apply list_elem_of_fmap_2.
  - by apply IH.
Qed.

Lemma senders_paid_less_witness :
  (∀ s : Settlement.t Q, s ∈ [Settlement.mk "2" "1" 30; Settlement.mk "3" "1" 30] →
     ∃ p q, p ∈ [alice; bob; carol] ∧ q ∈ [alice; bob; carol]
       ∧ Participant.id p = Settlement.fromId s ∧ Participant.id q = Settlement.toId s
       ∧ paid p [dinner] < average [alice; bob; carol] [dinner]
       ∧ average [alice; bob; carol] [dinner] < paid q [dinner])
  ∧ (∀ s s' : Settlement.t Q,
       s ∈ [Settlement.mk "2" "1" 30; Settlement.mk "3" "1" 30] →
       s' ∈ [Settlement.mk "2" "1" 30; Settlement.mk "3" "1" 30] →
       Settlement.fromId s ≠ Settlement.toId s').
Proof.
  apply (senders_paid_less [alice; bob; carol] [dinner]).
  - split; [refine (bool_decide_unpack _ _); vm_compute; exact I|].
    repeat constructor.
  - vm_compute. reflexivity.
Defined.

(** X4 (when nothing is to be transferred).  In exact arithmetic, on an
    input of the interface with at least one participant, the callback
    returns the empty list exactly when every balance is within the band
    or no participant has paid more than the average. *)
Theorem no_transfers_iff ps es :
  wellFormed ps es → ps ≠ [] →
  settlements ps es = Ok []
  ↔ (∀ p, p ∈ ps → Qabs (paid p es - average ps es) < 1)
    ∨ (∀ p, p ∈ ps → paid p es <= average ps es).
Proof.
  intros Hwf Hne.
  assert (balances (initial ps es) ≠ []) as Hne'.
  { simpl. intros E. apply (f_equal length) in E. rewrite computeBalances_length in E.
    destruct ps; [done|simpl in E; lia]. }
  destruct (while_total cap (initial ps es) Hne') as (e & fin & Hw).
  rewrite (settlements_greedy _ _ e fin Hw).
  assert (Forall inBand (computeBalances ps es)
          ↔ ∀ p, p ∈ ps → Qabs (paid p es - average ps es) < 1) as Hband.
  { rewrite Forall_forall. unfold inBand. split.
    - intros H p (b & Hb & _ & Hbal)%(computeBalances_of ps es).
      rewrite <- Hbal. by apply H.
    - intros H b (p & Hp & _ & Hbal)%computeBalances_elem. rewrite Hbal. by apply H. }
  assert (Forall (fun b : Balance.t Q => Balance.balance b <= 0) (computeBalances ps es)
          ↔ ∀ p, p ∈ ps → paid p es <= average ps es) as Hneg.
  { rewrite Forall_forall. split.
    - intros H p (b & Hb & _ & Hbal)%(computeBalances_of ps es).
      specialize (H b Hb). lra.
    - intros H b (p & Hp & _ & Hbal)%computeBalances_elem. specialize (H p Hp). lra. }
  rewrite <- Hband, <- Hneg. split.
  - intros [= Hres].
    destruct (inBand_dec (computeBalances ps es)) as [|Hnb]; [by left|].
    destruct (nobody_owed_dec (computeBalances ps es)) as [|Hnn]; [by right|].
    exfalso.
    destruct (pass_pushes (initial ps es)) as (st' & s & Hs & Hr);
      [by apply wellFormed_sum|done..|].
    assert (loopCount (initial ps es) < cap)%nat as Hlt by (unfold cap; simpl; lia).
    unfold greedy in Hw. change cap with (S 99) in Hw at 1.
    rewrite (while_S_Next _ _ _ Hlt Hs) in Hw.
    destruct (while_emitted_bound 99 st' e fin) as (new & Hfin & _); [|done|].
    { rewrite (iteration_Next_sum _ _ Hs). by apply wellFormed_sum. }
    rewrite Hfin, Hr, Hres in *. by destruct new.
  - intros [Hall|Hall]; f_equal.
    + assert (loopCount (initial ps es) < cap)%nat as Hlt by (unfold cap; simpl; lia).
      unfold greedy in Hw. change cap with (S 99) in Hw at 1.
      rewrite (while_S_Break 99 _ _ Hlt (inBand_break _ Hne' Hall)) in Hw.
      by injection Hw as _ <-.
    + by rewrite (nobody_owed_results cap (initial ps es) e fin Hall Hw).
Qed.

Lemma no_transfers_iff_witness :
  settlements [alice; bob] ([orphan] : list (Expense.t Q)) = Ok []
  ↔ (∀ p, p ∈ [alice; bob] → Qabs (paid p [orphan] - average [alice; bob] [orphan]) < 1)
    ∨ (∀ p, p ∈ [alice; bob] → paid p [orphan] <= average [alice; bob] [orphan]).
Proof.
  apply no_transfers_iff; [|done].
  split; [refine (bool_decide_unpack _ _); vm_compute; exact I|].
  repeat constructor.
Defined.

(** X5 (two parties, one expense).  In exact arithmetic, with
    participants A and B of different ids and one expense of [x >= 2]
    paid by A, the callback returns the one transfer of [x / 2] from B
    to A. *)
Theorem two_party_half (a b na nb eid : string) (desc : option string) (x : Q) :
  a ≠ b → 2 <= x →
  ∃ t, settlements [Participant.mk a na; Participant.mk b nb] [Expense.mk eid a x desc]
       = Ok [Settlement.mk b a t]
       ∧ t == x / 2.
Proof.
  intros Hab Hx.
  set (ps := [Participant.mk a na; Participant.mk b nb]).
  set (es := [Expense.mk eid a x desc]).
  assert (wellFormed ps es) as Hwf.
  { split; [|repeat constructor; simpl; lra].
    apply NoDup_cons. split; [by intros ?%list_elem_of_singleton|].
    apply NoDup_singleton. }
  assert (ps ≠ []) as Hne by done.
  assert (∃ ra rb, computeBalances ps es = [ra; rb]
            ∧ Balance.id ra = a ∧ Balance.id rb = b
            ∧ Balance.balance ra == x / 2 ∧ Balance.balance rb == - (x / 2))
    as (ra & rb & Hbal & Hida & Hidb & Hra & Hrb).
  { do 2 eexists. split; [reflexivity|]. split_and!; [done..| |].
    - unfold paid, average, totalSpent, sumAmounts. simpl.
      rewrite String.eqb_refl. simpl. rewrite !Qred_correct.
      change (inject_Z 2) with 2. field.
    - unfold paid, average, totalSpent, sumAmounts. simpl.
      apply String.eqb_neq in Hab. rewrite Hab. simpl. rewrite !Qred_correct.
      change (inject_Z 2) with 2. field. }
  assert (2 * Balance.balance ra == x) as Hra2 by (rewrite Hra; field).
  assert (2 * Balance.balance rb == - x) as Hrb2 by (rewrite Hrb; field).
  clear Hra Hrb.
  assert (sumBalances (computeBalances ps es) <= 0) as Hsum by by apply wellFormed_sum.
  destruct (pass_pushes (initial ps es)) as (st' & s & Hs & Hr); [done|done|..].
  { simpl. rewrite Hbal. intros [Hin _]%Forall_cons. unfold inBand in Hin.
    apply Qabs_Qlt_condition in Hin. lra. }
  { simpl. rewrite Hbal. intros [Hin _]%Forall_cons. lra. }
  destruct (emitting_pass _ _ _ Hs Hsum Hr)
    as (d & c & Hem & Hd & Hc & Hdn & Hcp & _ & Hnz & _).
  simpl in Hd, Hc. rewrite Hbal in Hd, Hc.
  assert (d = rb) as ->.
  { apply elem_of_cons in Hd as [->|Hd]; [lra|]. by apply list_elem_of_singleton in Hd. }
  assert (c = ra) as ->.
  { apply elem_of_cons in Hc as [->|Hc]; [done|].
    apply list_elem_of_singleton in Hc as ->. lra. }
  destruct Hem as (_ & _ & _ & _ & ->). rewrite Hida, Hidb in Hr. simpl in Hr.
  exists (transferAmount rb ra). split.
  - destruct (while_total 99 st') as (e & fin & Hw);
      [by apply (iteration_Next_nonempty (initial ps es))|].
    assert (loopCount (initial ps es) < cap)%nat as Hlt by (unfold cap; simpl; lia).
    assert (greedy ps es = Ok (e, fin)) as Hg.
    { unfold greedy. change cap with (S 99) at 1. by rewrite (while_S_Next _ _ _ Hlt Hs). }
    rewrite (settlements_greedy _ _ _ _ Hg). f_equal.
    destruct (while_emitted_bound 99 st' e fin) as (new & Hfin & Hlen); [|done|].
    { by rewrite (iteration_Next_sum _ _ Hs). }
    rewrite Hfin, Hr.
    pose proof (nonzero_le_length (balances (initial ps es))) as Hle.
    simpl in Hle, Hnz. rewrite Hbal in Hle, Hnz. simpl in Hle.
    destruct Hlen as [->|Hlen]; [done|]. destruct new; [done|]. simpl in Hlen. lia.
  - assert (2 * transferAmount rb ra == x) as Ht; [|rewrite <- Ht; field].
    destruct (transferAmount_cases rb ra) as [[_ ->]|[_ ->]]; [|done].
    destruct (q_abs_cases (Balance.balance rb)) as [[? Habs]|[? Habs]];
      cbn [n_abs Q_Number] in Habs; rewrite Habs; lra.
Qed.

Lemma two_party_half_witness :
  ∃ t, settlements [alice; bob] [Expense.mk "e" "1" 100 None]
       = Ok [Settlement.mk "2" "1" t]
       ∧ t == 100 / 2.
Proof. apply (two_party_half "1" "2" "A" "B" "e" None 100); [discriminate|lra]. Defined.

End CoreProperties.

(** ** The application *)

(** *** The guard of [addExpense] *)

(** A number that is not [NaN] and not [<= 0] is [> 0]. *)
Lemma Q_guard_positive (a : Q) :
  n_isNaN a = false → n_le a n_zero = false → n_lt n_zero a = true.
Proof.
  intros _ Hle. apply Qltb_lt. apply Qnot_le_lt. intros H.
  apply Qle_bool_iff in H. cbn [n_le Q_NumberTest n_zero Q_Number] in Hle, H. congruence.
Qed.

Lemma float_guard_positive (a : float) :
  n_isNaN a = false → n_le a n_zero = false → n_lt n_zero a = true.
Proof.
  cbn [n_isNaN n_le Float_NumberTest n_lt n_zero Float_Number].
  unfold PrimFloat.is_nan.
  rewrite FloatAxioms.eqb_spec, FloatAxioms.leb_spec, FloatAxioms.ltb_spec.
  change (FloatOps.Prim2SF PrimFloat.zero) with (S754_zero false).
  destruct (FloatOps.Prim2SF a) as [s|s| |s m e]; try destruct s; cbn; congruence.
Qed.

(** *** Ids *)

Lemma toString_nonempty (now : N) : toString now ≠ "".
Proof.
  unfold toString. destruct (N.to_uint now) as [|d|d|d|d|d|d|d|d|d|d]; simpl; try done.
Qed.

Lemma toString_inj (n m : N) : toString n = toString m → n = m.
Proof.
  unfold toString. intros E.
  assert (∀ k : N, N.to_uint k ≠ Decimal.Nil) as Hnn.
  { intros [|p]; [done|]. apply DecimalPos.Unsigned.to_uint_nonnil. }
  apply DecimalN.Unsigned.to_uint_inj.
  pose proof (NilZero.usu _ (Hnn n)) as Hn. pose proof (NilZero.usu _ (Hnn m)) as Hm.
  rewrite E in Hn. congruence.
Qed.

Section AppFacts.
Context {num : Type} {Num : Number num} {T : NumberTest num}.
Variable trim : string → string.
Variable parseFloat : string → num.
Hypothesis guard_positive :
  ∀ a : num, n_isNaN a = false → n_le a n_zero = false → n_lt n_zero a = true.

Local Abbreviation dispatch := (App.dispatch trim parseFloat).
Local Abbreviation run := (App.run trim parseFloat).

Lemma run_snoc evs ev (st : App.State num) :
  run (evs ++ [ev]) st = dispatch ev (run evs st).
Proof. unfold App.run. by rewrite fold_left_app. Qed.

Lemma truthy_nonempty s : truthy s = true ↔ s ≠ "".
Proof.
  unfold truthy. rewrite negb_true_iff. split.
  - by intros ?%String.eqb_neq.
  - by intros ?%String.eqb_neq.
Qed.

(** What the guards of the handlers establish is kept by every event. *)
Lemma dispatch_guarded ev (st : App.State num) :
  App.guarded st → App.guarded (dispatch ev st).
Proof.
  intros Hg. pose proof Hg as (Hexp & Hps & Hstep & Hplan).
  unfold App.dispatch. destruct (App.offered ev st) eqn:Hoff; [|done].
  unfold App.offered in Hoff.
  destruct ev; destruct (App.step st) eqn:Hscreen; try discriminate; simpl.
  - (* ChangeName *) unfold App.guarded. simpl. by rewrite Hscreen.
  - (* ClickAdd *)
    unfold App.addParticipant. destruct (truthy (trim (App.newName st))) eqn:Hname; simpl;
      [|done].
    unfold App.guarded. simpl. rewrite Hscreen. split_and!; [done| |done..].
    apply Forall_app. split; [done|]. apply Forall_singleton. simpl.
    split; [by apply truthy_nonempty|apply toString_nonempty].
  - (* ClickRemoveParticipant *)
    unfold App.guarded. simpl. rewrite Hscreen. split_and!; [done| |done..].
    apply List.Forall_forall. intros p [Hp _]%List.filter_In.
    rewrite List.Forall_forall in Hps. by apply Hps.
  - (* ClickNext *)
    unfold App.startExpenseEntry. destruct (App.participants st) as [|p0 [|p1 ps]] eqn:Hpart;
      [done..|].
    unfold App.guarded. simpl. split_and!; [done..| |done].
    intros _. split; [lia|].
    destruct (truthy (App.newExpensePayer st)) eqn:Hpay; simpl.
    + by apply truthy_nonempty.
    + apply Forall_cons in Hps as [[_ Hid] _]. done.
  - (* ChangePayer *)
    unfold App.guarded. simpl. rewrite Hscreen. split_and!; [done..| |done].
    intros _. split; [by apply Hstep|].
    apply existsb_exists in Hoff as (p & Hp & <-%String.eqb_eq).
    rewrite List.Forall_forall in Hps. by apply Hps.
  - (* ChangeAmount *) unfold App.guarded. simpl. by rewrite Hscreen.
  - (* ChangeDesc *) unfold App.guarded. simpl. by rewrite Hscreen.
  - (* ClickAddExpense *)
    unfold App.addExpense.
    destruct (negb (truthy (App.newExpensePayer st))
              || n_isNaN (parseFloat (App.newExpenseAmount st))
              || n_le (parseFloat (App.newExpenseAmount st)) n_zero) eqn:Hguard; [done|].
    apply orb_false_iff in Hguard as [[Hpay Hnan]%orb_false_iff Hle].
    apply negb_false_iff in Hpay.
    unfold App.guarded. simpl. rewrite Hscreen. split_and!; [|done..].
    apply Forall_app. split; [done|]. apply Forall_singleton. simpl.
    split_and!; [done|by apply guard_positive|by apply truthy_nonempty].
  - (* ClickDelete *)
    unfold App.guarded. simpl. rewrite Hscreen. split_and!; [|done..].
    apply List.Forall_forall. intros e [He _]%List.filter_In.
    rewrite List.Forall_forall in Hexp. by apply Hexp.
  - (* ClickBack *) unfold App.guarded. simpl. by split_and!.
  - (* ClickCalculate *)
    unfold App.guarded. simpl. split_and!; [done..| |].
    + intros _. by apply Hstep.
    + intros _ E. by rewrite E in Hoff.
  - (* ClickEdit *)
    unfold App.guarded. simpl. split_and!; [done..| |done].
    intros _. by apply Hstep.
  - (* ClickReset *)
    unfold App.resetAll. destruct confirmed; [|done].
    unfold App.guarded. simpl. by split_and!.
Qed.

Lemma run_guarded evs : App.guarded (run evs App.init).
Proof.
  induction evs as [|ev evs IH] using rev_ind.
  - unfold App.guarded. simpl. by split_and!.
  - rewrite run_snoc. by apply dispatch_guarded.
Qed.

End AppFacts.

Section AppIds.
Context {num : Type} {Num : Number num} {T : NumberTest num}.
Variable trim : string → string.
Variable parseFloat : string → num.

Local Abbreviation dispatch := (App.dispatch trim parseFloat).
Local Abbreviation run := (App.run trim parseFloat).

Lemma stamps_snoc evs ev : App.stamps (evs ++ [ev]) = App.stamps evs ++ App.stamps [ev].
Proof. unfold App.stamps. by rewrite List.flat_map_app. Qed.

(** An event leaves the participants alone, removes some of them, or
    appends one whose id is the value of [Date.now()] it carries. *)
Lemma dispatch_participants ev (st : App.State num) :
  (∃ keep, App.participants (dispatch ev st) = List.filter keep (App.participants st))
  ∨ (∃ now name, ev = App.ClickAdd now ∧ name ≠ ""
       ∧ App.participants (dispatch ev st)
         = App.participants st ++ [Participant.mk (toString now) name]).
Proof.
  assert (∀ l : list Participant.t, ∃ keep, l = List.filter keep l) as Hsame.
  { intros l. exists (fun _ => true). induction l; simpl; congruence. }
  unfold App.dispatch. destruct (App.offered ev st); [|left; apply Hsame].
  destruct ev; simpl; try (left; apply Hsame).
  - unfold App.addParticipant.
    destruct (negb (truthy (trim (App.newName st)))) eqn:Ht; [left; apply Hsame|].
    right. do 2 eexists. split_and!; [done| |done].
    apply truthy_nonempty. by apply negb_false_iff.
  - left. by eexists.
  - left. unfold App.startExpenseEntry.
    destruct (App.participants st) as [|? [|? ?]] eqn:E; rewrite ?E; apply Hsame.
  - left. unfold App.addExpense. destruct (_ || _); apply Hsame.
  - left. unfold App.resetAll. destruct confirmed; [|apply Hsame].
    exists (fun _ => false). simpl. by induction (App.participants st).
Qed.

(** Every participant's id is the numeral of a value of [Date.now()]
    that a click on Add carried, and the ids are unique when these
    values are. *)
Lemma run_ids evs :
  NoDup (App.stamps evs) →
  NoDup (Participant.id <$> App.participants (run evs App.init))
  ∧ ∀ p, p ∈ App.participants (run evs App.init) →
      ∃ now, now ∈ App.stamps evs ∧ Participant.id p = toString now.
Proof.
  induction evs as [|ev evs IH] using rev_ind; intros Hnd.
  { split; [constructor|]. by intros p ?%elem_of_nil. }
  rewrite stamps_snoc in Hnd. apply NoDup_app in Hnd as (Hnd & Hdisj & _).
  destruct (IH Hnd) as [Hids Hfrom]. clear IH.
  rewrite run_snoc, stamps_snoc.
  destruct (dispatch_participants ev (run evs App.init))
    as [[keep ->]|(now & name & -> & _ & ->)].
  - split.
    + clear Hfrom. induction (App.participants (run evs App.init)) as [|p ps IHp];
        [constructor|].
      rewrite fmap_cons in Hids. apply NoDup_cons in Hids as [Hp Hps].
      simpl. destruct (keep p); [|by apply IHp].
      rewrite fmap_cons. apply NoDup_cons. split; [|by apply IHp].
      intros (q & Hq & Hin)%list_elem_of_fmap. apply Hp. rewrite Hq.
      apply list_elem_of_fmap_2. by apply list_elem_of_In, List.filter_In in Hin as [?%list_elem_of_In _].
    + intros p [Hp%list_elem_of_In _]%list_elem_of_In%List.filter_In.
      destruct (Hfrom p Hp) as (now & Hnow & Hid).
      exists now. split; [|done]. apply elem_of_app. by left.
  - split.
    + rewrite fmap_app. apply NoDup_app. split_and!; [done| |apply NoDup_singleton].
      intros i (p & Hi & Hp)%list_elem_of_fmap Hi'%list_elem_of_singleton.
      destruct (Hfrom p Hp) as (n & Hn & Hid). simpl in Hi'.
      assert (n = now) as -> by (apply toString_inj; congruence). apply (Hdisj now Hn). simpl. constructor.
    + intros p [Hp| ->%list_elem_of_singleton]%elem_of_app.
      * destruct (Hfrom p Hp) as (n & Hn & Hid). exists n. split; [|done].
        apply elem_of_app. by left.
      * exists now. split; [|done]. apply elem_of_app. right. simpl. constructor.
Qed.

(** Every participant has a name that is not empty. *)
Lemma run_named evs :
  Forall (fun p => Participant.name p ≠ "") (App.participants (run evs App.init)).
Proof.
  induction evs as [|ev evs IH] using rev_ind; [constructor|].
  rewrite run_snoc.
  destruct (dispatch_participants ev (run evs App.init))
    as [[keep ->]|(now & name & -> & Hname & ->)].
  - apply List.Forall_forall. intros p [Hp _]%List.filter_In.
    by apply (proj1 (List.Forall_forall _ _) IH).
  - apply Forall_app. split; [done|]. by constructor.
Qed.

(** [find] returns a participant for every id of the array. *)
Lemma nameOf_elem (ps : list Participant.t) (i : string) :
  i ∈ Participant.id <$> ps →
  ∃ p, p ∈ ps ∧ Participant.id p = i ∧ nameOf ps i = Some (Participant.name p).
Proof.
  unfold nameOf. induction ps as [|q ps IH]; [by intros ?%elem_of_nil|].
  rewrite fmap_cons. simpl. destruct (String.eqb_spec (Participant.id q) i) as [E|E].
  - intros _. exists q. split_and!; [constructor|done..].
  - intros [?|Hin]%elem_of_cons; [congruence|].
    destruct (IH Hin) as (p & Hp & Hid & Hname). exists p. split_and!; [by constructor|done..].
Qed.

Lemma nameOf_None (ps : list Participant.t) (i : string) :
  i ∉ Participant.id <$> ps → nameOf ps i = None.
Proof.
  unfold nameOf. induction ps as [|q ps IH]; [done|].
  rewrite fmap_cons, not_elem_of_cons. intros [Hne Hin]. simpl.
  destruct (String.eqb_spec (Participant.id q) i) as [E|E]; [congruence|]. by apply IH.
Qed.

End AppIds.

(** ** In every arithmetic *)

Section AnyArithmetic.
Context {num : Type} {Num : Number num}.
Implicit Types (st : LoopState num).

(** Each pass that does not [break] pushes at most one settlement. *)
Lemma while_results_length fuel st e fin :
  while fuel st = Ok (e, fin) →
  length (results fin) + loopCount st ≤ length (results st) + loopCount fin.
Proof.
  revert st. induction fuel as [|fuel IH]; intros st.
  - by intros [= <- <-].
  - intros [(Hge & -> & ->)|[(Hlt & Hs & ->)|(Hlt & st' & Hs & Hw)]]%while_S_inv.
    + done.
    + by apply iteration_Break_state in Hs as ->.
    + apply IH in Hw.
      pose proof (iteration_Next_length _ _ Hs) as [_ Hc].
      apply iteration_Next_cases in Hs as (d & c & _ & _ & Hres & _).
      assert (length (results st') ≤ S (length (results st))); [|lia].
      rewrite Hres. destruct (n_gt _ _); [|lia].
      rewrite length_app. simpl. lia.
Qed.

Lemma reaches_ids st k st' :
  reaches st k st' → Balance.id <$> balances st' ≡ₚ Balance.id <$> balances st.
Proof.
  intros Hr.
  apply (reaches_invariant
           (fun s => Balance.id <$> balances s ≡ₚ Balance.id <$> balances st))
    with (st := st) (k := k); [|done..].
  intros s s' Hs Hi. by rewrite (iteration_Next_ids s s' Hi).
Qed.

Lemma sort_elem_of (l : list (Balance.t num)) i b : sort l !! i = Some b → b ∈ l.
Proof.
  intros Hb%list_elem_of_lookup_2. by rewrite <- (sort_Permutation l).
Qed.

Lemma results_generic (ps : list Participant.t) (es : list (Expense.t num)) :
  ∃ ss, settlements ps es = Ok ss
    ∧ length ss ≤ 100
    ∧ ∀ s, s ∈ ss →
        n_gt (Settlement.amount s) n_zero = true
        ∧ Settlement.fromId s ∈ Participant.id <$> ps
        ∧ Settlement.toId s ∈ Participant.id <$> ps.
Proof.
  destruct ps as [|p ps].
  { exists []. split_and!; [done|simpl; lia|]. by intros s ?%elem_of_nil. }
  destruct (while_total cap (initial (p :: ps) es)) as (e & fin & Hw); [done|].
  exists (results fin). split; [by apply (settlements_greedy _ _ e)|]. split.
  - pose proof (while_results_length _ _ _ _ Hw) as Hlen.
    pose proof (while_loopCount _ _ _ _ Hw) as (_ & Hcap & _).
    simpl in Hlen, Hcap. unfold cap in Hcap. lia.
  - intros s Hs.
    destruct (while_results _ _ _ _ _ Hw Hs) as [Hin|(k & st & d & c & _ & Hr & Hem)].
    { by apply elem_of_nil in Hin. }
    destruct Hem as (Hd & Hc & _ & Hgt & ->). cbn [Settlement.amount
      Settlement.fromId Settlement.toId].
    pose proof (reaches_ids _ _ _ Hr) as Hids.
    change (balances (initial (p :: ps) es)) with (computeBalances (p :: ps) es) in Hids.
    rewrite computeBalances_ids in Hids.
    split_and!; [done|..]; rewrite <- Hids; apply list_elem_of_fmap_2;
      by eapply sort_elem_of.
Qed.

End AnyArithmetic.

(** X6 (what the result holds in every arithmetic).  In binary64 as in
    exact arithmetic, and on every input -- payers that are no
    participants, ids that repeat, amounts that are negative or [NaN]
    --, the callback returns an array of at most 100 settlements; each
    of them has passed the test [amount > 0], and its [fromId] and
    [toId] are ids of participants. *)
Theorem results_any_arithmetic (num : Type) (Num : Number num)
    (ps : list Participant.t) (es : list (Expense.t num)) :
  ∃ ss, settlements ps es = Ok ss
    ∧ length ss ≤ 100
    ∧ ∀ s, s ∈ ss →
        n_gt (Settlement.amount s) n_zero = true
        ∧ Settlement.fromId s ∈ Participant.id <$> ps
        ∧ Settlement.toId s ∈ Participant.id <$> ps.
Proof. apply results_generic. Qed.

(** X7 (no [NaN] in the result).  In binary64 every amount of the
    result is a number above zero, not [NaN], whatever the amounts of
    the expenses are. *)
Theorem float_amounts_numbers (ps : list Participant.t) (es : list (Expense.t float)) :
  ∃ ss, settlements ps es = Ok ss
    ∧ ∀ s, s ∈ ss →
        PrimFloat.is_nan (Settlement.amount s) = false
        ∧ PrimFloat.ltb PrimFloat.zero (Settlement.amount s) = true.
Proof.
  destruct ps as [|p ps].
  { exists []. split; [done|]. by intros s ?%elem_of_nil. }
  destruct (while_total cap (initial (p :: ps) es)) as (e & fin & Hw); [done|].
  exists (results fin). split; [by apply (settlements_greedy _ _ e)|].
  intros s Hs.
  destruct (while_results _ _ _ _ _ Hw Hs) as [Hin|(k & st & d & c & _ & Hr & Hem)].
  { by apply elem_of_nil in Hin. }
  destruct Hem as (_ & _ & _ & Hgt & ->). cbn [Settlement.amount].
  unfold n_gt in Hgt. cbn [n_lt n_zero Float_Number] in Hgt.
  split; [|done]. revert Hgt. generalize (transferAmount d c). intros a.
  unfold PrimFloat.is_nan.
  rewrite FloatAxioms.eqb_spec, FloatAxioms.ltb_spec.
  change (FloatOps.Prim2SF PrimFloat.zero) with (S754_zero false).
  destruct (FloatOps.Prim2SF a) as [s|s| |s m x]; try destruct s; cbn; try congruence.
  intros _. by rewrite Z.compare_refl, Pos.compare_refl.
Qed.

(** ** Sessions of the application *)

Section Sessions.
Local Open Scope Q_scope.
Variable trim : string → string.
Variable parseFloat : string → Q.

Local Abbreviation dispatch := (App.dispatch trim parseFloat).
Local Abbreviation run := (App.run trim parseFloat).

Lemma unattributed_nil ps (es : list (Expense.t Q)) :
  (∀ e, e ∈ es → Expense.payerId e ∈ Participant.id <$> ps) → unattributed ps es = [].
Proof.
  intros Hall. unfold unattributed. induction es as [|e es IH]; [done|]. simpl.
  assert (attributed ps e = true) as ->.
  { assert (Expense.payerId e ∈ Participant.id <$> ps) as (p & Hp & Hin)%list_elem_of_fmap
      by (apply Hall; constructor).
    apply existsb_exists. exists p. split; [by apply list_elem_of_In|].
    by apply String.eqb_eq. }
  simpl. apply IH. intros e' He'. apply Hall. by constructor.
Qed.

(** With unique ids, every expense paid by a participant and at most
    100 participants, the settlements returned bring every balance
    within the band. *)
Lemma attributed_settled ps (es : list (Expense.t Q)) :
  NoDup (Participant.id <$> ps) →
  (∀ e, e ∈ es → Expense.payerId e ∈ Participant.id <$> ps) →
  (length ps <= cap)%nat →
  ∃ ss, settlements ps es = Ok ss
    ∧ Forall inBand (applySettlements ss (computeBalances ps es)).
Proof.
  intros Hnd Hall Hlen. destruct ps as [|p ps]; [by exists []|].
  destruct (while_settles cap (initial (p :: ps) es)) as [fin Hw].
  - change (balances (initial (p :: ps) es)) with (computeBalances (p :: ps) es).
    assert (p :: ps ≠ []) as Hne by done.
    rewrite (sumBalances_initial _ _ Hne Hnd), unattributed_nil by done.
    reflexivity.
  - done.
  - unfold cap. lia.
  - pose proof (nonzero_le_length (computeBalances (p :: ps) es)) as Hnz.
    rewrite computeBalances_length in Hnz.
    change (balances (initial (p :: ps) es)) with (computeBalances (p :: ps) es). lia.
  - done.
  - exists (results fin). split; [by apply (settlements_greedy _ _ Settled)|].
    apply while_settled_applied in Hw as (new & Hres & Hp & Hin).
    + simpl in Hres. subst new. by rewrite <- Hp.
    + change (balances (initial (p :: ps) es)) with (computeBalances (p :: ps) es).
      by rewrite computeBalances_ids.
Qed.

(** Without a removal and without a reset, the selected payer, when
    there is one, and the payer of every expense are participants. *)
Lemma dispatch_attributed ev (st : App.State Q) :
  (∀ id, ev ≠ App.ClickRemoveParticipant id) → ev ≠ App.ClickReset true →
  (App.newExpensePayer st = "" ∨ App.newExpensePayer st ∈ Participant.id <$> App.participants st)
  ∧ (∀ e, e ∈ App.expenses st → Expense.payerId e ∈ Participant.id <$> App.participants st) →
  (App.newExpensePayer (dispatch ev st) = ""
   ∨ App.newExpensePayer (dispatch ev st) ∈ Participant.id <$> App.participants (dispatch ev st))
  ∧ (∀ e, e ∈ App.expenses (dispatch ev st) →
       Expense.payerId e ∈ Participant.id <$> App.participants (dispatch ev st)).
Proof.
  intros Hrm Hreset [Hsel Hexp]. unfold App.dispatch.
  destruct (App.offered ev st) eqn:Hoff; [|done].
  destruct ev; simpl; try done.
  - unfold App.addParticipant. destruct (negb _); [done|]. simpl.
    rewrite fmap_app. split.
    + destruct Hsel as [?|?]; [by left|right; apply elem_of_app; by left].
    + intros e He. apply elem_of_app. left. by apply Hexp.
  - by destruct (Hrm id).
  - unfold App.startExpenseEntry.
    destruct (App.participants st) as [|p0 [|p1 ps]] eqn:E; rewrite ?E; try done.
    cbn [App.newExpensePayer App.participants App.expenses]. split; [|done]. right.
    destruct (negb (truthy (App.newExpensePayer st))) eqn:Ht.
    + rewrite fmap_cons. constructor.
    + destruct Hsel as [Hs|?]; [|done]. rewrite Hs in Ht. done.
  - split; [|done]. right. unfold App.offered in Hoff.
    destruct (App.step st); try done.
    apply existsb_exists in Hoff as (p & Hp & <-%String.eqb_eq).
    apply list_elem_of_fmap_2. by apply list_elem_of_In.
  - unfold App.addExpense.
    destruct (negb (truthy (App.newExpensePayer st))) eqn:Ht; [done|].
    destruct (_ || _); [done|]. simpl. split; [done|].
    intros e [He| ->%list_elem_of_singleton]%elem_of_app; [by apply Hexp|]. simpl.
    destruct Hsel as [Hs|?]; [|done]. rewrite Hs in Ht. done.
  - split; [done|].
    intros e [He%list_elem_of_In _]%list_elem_of_In%List.filter_In. by apply Hexp.
  - destruct confirmed; [done|]. done.
Qed.

Lemma run_attributed evs :
  (∀ id, App.ClickRemoveParticipant id ∉ evs) → App.ClickReset true ∉ evs →
  ∀ e, e ∈ App.expenses (run evs App.init) →
    Expense.payerId e ∈ Participant.id <$> App.participants (run evs App.init).
Proof.
  intros Hrm Hreset.
  cut ((App.newExpensePayer (run evs App.init) = ""
        ∨ App.newExpensePayer (run evs App.init)
          ∈ Participant.id <$> App.participants (run evs App.init))
       ∧ (∀ e, e ∈ App.expenses (run evs App.init) →
            Expense.payerId e ∈ Participant.id <$> App.participants (run evs App.init))).
  { by intros [_ ?]. }
  induction evs as [|ev evs IH] using rev_ind.
  { split; [by left|]. by intros e ?%elem_of_nil. }
  rewrite run_snoc. apply dispatch_attributed.
  - intros id ->. apply (Hrm id), elem_of_app. right. constructor.
  - intros ->. apply Hreset, elem_of_app. right. constructor.
  - apply IH.
    + intros id Hin. apply (Hrm id), elem_of_app. by left.
    + intros Hin. apply Hreset, elem_of_app. by left.
Qed.

End Sessions.

(** ** Properties of the application *)

(** X8 (what the guards of the handlers establish).  After every
    sequence of events, in exact arithmetic and in binary64, whatever
    [trim] and [parseFloat] return: every expense has an amount that is
    a number above zero and a payer id that is not empty; every
    participant has a name and an id that are not empty; on the second
    and third screen there are two participants or more and a payer is
    selected; the settlement plan is only shown with an expense. *)
Theorem handlers_guard :
  (∀ trim parseFloat evs,
     App.guarded (App.run (num := Q) trim parseFloat evs App.init))
  ∧ (∀ trim parseFloat evs,
       App.guarded (App.run (num := float) trim parseFloat evs App.init)).
Proof.
  split; intros; apply run_guarded;
    [apply Q_guard_positive|apply float_guard_positive].
Qed.

(** X9 (a session gives an input of the interface).  When the values of
    [Date.now()] that the clicks on Add carried are distinct, the
    participants of the state have unique ids and every expense has an
    amount above zero, after every sequence of events. *)
Theorem session_wellFormed (trim : string → string) (parseFloat : string → Q)
    (evs : list App.Event) :
  NoDup (App.stamps evs) →
  wellFormed (App.participants (App.run trim parseFloat evs App.init))
    (App.expenses (App.run trim parseFloat evs App.init)).
Proof.
  intros Hnd. split; [by apply run_ids|].
  destruct (run_guarded trim parseFloat Q_guard_positive evs) as (Hexp & _).
  eapply Forall_impl; [exact Hexp|]. intros e (_ & Hpos & _). by apply Qltb_lt.
Qed.

Lemma session_wellFormed_witness :
  wellFormed [alice; bob] [Expense.mk "3" "1" 90%Q (Some "")].
Proof.
  apply (session_wellFormed (fun s => s) (fun _ => 90%Q)
           [App.ChangeName "A"; App.ClickAdd 1; App.ChangeName "B"; App.ClickAdd 2;
            App.ClickNext; App.ChangeAmount "90"; App.ClickAddExpense 3]).
  refine (bool_decide_unpack _ _). vm_compute. exact I.
Defined.

(** X10 (the plan settles the balances).  In exact arithmetic, with at
    most 100 participants, unique ids and every expense paid by a
    participant, the callback returns settlements that, applied in order
    to the initial balances, leave every balance strictly within one
    unit of zero. *)
Theorem plan_settles (ps : list Participant.t) (es : list (Expense.t Q)) :
  NoDup (Participant.id <$> ps) →
  (∀ e, e ∈ es → Expense.payerId e ∈ Participant.id <$> ps) →
  length ps ≤ 100 →
  ∃ ss, settlements ps es = Ok ss
    ∧ Forall inBand (applySettlements ss (computeBalances ps es)).
Proof. apply attributed_settled. Qed.

Lemma plan_settles_witness :
  ∃ ss, settlements [alice; bob; carol] [dinner] = Ok ss
    ∧ Forall inBand (applySettlements ss (computeBalances [alice; bob; carol] [dinner])).
Proof.
  apply (plan_settles [alice; bob; carol] [dinner]).
  - refine (bool_decide_unpack _ _). vm_compute. exact I.
  - intros e ->%list_elem_of_singleton. simpl. constructor.
  - simpl. lia.
Defined.

(** X11 (a session without removals).  In exact arithmetic, after a
    sequence of events with distinct values of [Date.now()], without a
    click on a chip's remove and without a confirmed Reset All, and
    with at most 100 participants, the payer of every expense is a
    participant and the settlements computed from the state bring every
    balance strictly within one unit of zero. *)
Theorem session_plan_settles (trim : string → string) (parseFloat : string → Q)
    (evs : list App.Event) :
  NoDup (App.stamps evs) →
  (∀ id, App.ClickRemoveParticipant id ∉ evs) →
  App.ClickReset true ∉ evs →
  length (App.participants (App.run trim parseFloat evs App.init)) ≤ 100 →
  (∀ e, e ∈ App.expenses (App.run trim parseFloat evs App.init) →
     Expense.payerId e
     ∈ Participant.id <$> App.participants (App.run trim parseFloat evs App.init))
  ∧ ∃ ss, App.settlementsOf (App.run trim parseFloat evs App.init) = Ok ss
      ∧ Forall inBand
          (applySettlements ss
             (computeBalances (App.participants (App.run trim parseFloat evs App.init))
                (App.expenses (App.run trim parseFloat evs App.init)))).
Proof.
  intros Hnd Hrm Hreset Hlen.
  pose proof (run_attributed trim parseFloat evs Hrm Hreset) as Hall.
  split; [done|]. apply attributed_settled; [|done..]. by apply run_ids.
Qed.

Lemma session_plan_settles_witness :
  (∀ e : Expense.t Q, e ∈ [Expense.mk "3" "1" 90%Q (Some "")] →
     Expense.payerId e ∈ Participant.id <$> [alice; bob])
  ∧ ∃ ss, settlements [alice; bob] [Expense.mk "3" "1" 90%Q (Some "")] = Ok ss
      ∧ Forall inBand
          (applySettlements ss
             (computeBalances [alice; bob] [Expense.mk "3" "1" 90%Q (Some "")])).
Proof.
  apply (session_plan_settles (fun s => s) (fun _ => 90%Q)
           [App.ChangeName "A"; App.ClickAdd 1; App.ChangeName "B"; App.ClickAdd 2;
            App.ClickNext; App.ChangeAmount "90"; App.ClickAddExpense 3;
            App.ClickCalculate]).
  - refine (bool_decide_unpack _ _). vm_compute. exact I.
  - intros id Hin. repeat (apply elem_of_cons in Hin as [?|Hin]; [done|]).
    by apply elem_of_nil in Hin.
  - intros Hin. repeat (apply elem_of_cons in Hin as [?|Hin]; [done|]).
    by apply elem_of_nil in Hin.
  - vm_compute. lia.
Defined.

(** X12 (the names of the plan).  After every sequence of events, in
    every arithmetic, the settlements computed from the state exist,
    and for each of them the lookups
    [participants.find(p => p.id === s.fromId)?.name] and
    [participants.find(p => p.id === s.toId)?.name] of the plan find a
    participant, whose name is not empty. *)
Theorem names_displayed (num : Type) (Num : Number num) (T : NumberTest num)
    (trim : string → string) (parseFloat : string → num) (evs : list App.Event) :
  ∃ ss, App.settlementsOf (App.run trim parseFloat evs App.init) = Ok ss
    ∧ ∀ s, s ∈ ss →
        ∃ a b,
          nameOf (App.participants (App.run trim parseFloat evs App.init))
            (Settlement.fromId s) = Some a
          ∧ nameOf (App.participants (App.run trim parseFloat evs App.init))
              (Settlement.toId s) = Some b
          ∧ a ≠ "" ∧ b ≠ "".
Proof.
  unfold App.settlementsOf.
  pose proof (run_named trim parseFloat evs) as Hnamed.
  set (st := App.run trim parseFloat evs App.init) in *.
  destruct (results_generic (App.participants st) (App.expenses st))
    as (ss & Hss & _ & Hall).
  exists ss. split; [done|]. intros s Hs.
  destruct (Hall s Hs) as (_ & Hfrom & Hto).
  apply nameOf_elem in Hfrom as (p & Hp & _ & Hpn).
  apply nameOf_elem in Hto as (q & Hq & _ & Hqn).
  exists (Participant.name p), (Participant.name q).
  rewrite Forall_forall in Hnamed. split_and!; [done|done|by apply Hnamed..].
Qed.

(** X13 (the average of the plan).  In exact arithmetic, when the third
    screen is shown the total of the expenses is above zero, and so is
    the amount [totalTotal / participants.length] that each person
    should spend, the average of the callback. *)
Theorem plan_average_positive (trim : string → string) (parseFloat : string → Q)
    (evs : list App.Event) :
  App.step (App.run trim parseFloat evs App.init) = App.Step3 →
  (0 < App.totalTotal (App.run trim parseFloat evs App.init))%Q
  ∧ (0 < n_div (App.totalTotal (App.run trim parseFloat evs App.init))
           (n_ofNat (length (App.participants (App.run trim parseFloat evs App.init)))))%Q
  ∧ n_div (App.totalTotal (App.run trim parseFloat evs App.init))
      (n_ofNat (length (App.participants (App.run trim parseFloat evs App.init))))
    = average (App.participants (App.run trim parseFloat evs App.init))
        (App.expenses (App.run trim parseFloat evs App.init)).
Proof.
  intros Hstep.
  destruct (run_guarded trim parseFloat Q_guard_positive evs) as (Hexp & _ & Hps & Hne).
  set (st := App.run trim parseFloat evs App.init) in *.
  specialize (Hne Hstep). destruct Hps as [Hlen _]; [by rewrite Hstep|].
  assert (0 < App.totalTotal st)%Q as Htotal.
  { unfold App.totalTotal. destruct (App.expenses st) as [|e es]; [done|].
    apply Forall_cons in Hexp as [(_ & He%Qltb_lt & _) Hes].
    rewrite sumAmounts_cons.
    assert (0 <= sumAmounts es)%Q; [|cbn [n_zero Q_Number] in He; lra].
    apply sumAmounts_nonneg. eapply Forall_impl; [exact Hes|].
    intros e' (_ & Hpos & _). by apply Qltb_lt. }
  split_and!; [done| |done].
  rewrite q_div. apply Qlt_shift_div_l; [|lra].
  cbn [n_ofNat Q_Number]. change 0%Q with (inject_Z 0). rewrite <- Zlt_Qlt. lia.
Qed.

Lemma plan_average_positive_witness :
  (0 < 90)%Q ∧ (0 < n_div 90 (n_ofNat 2))%Q
  ∧ n_div 90%Q (n_ofNat 2) = average [alice; bob] [Expense.mk "3" "1" 90%Q (Some "")].
Proof.
  apply (plan_average_positive (fun s => s) (fun _ => 90%Q)
           [App.ChangeName "A"; App.ClickAdd 1; App.ChangeName "B"; App.ClickAdd 2;
            App.ClickNext; App.ChangeAmount "90"; App.ClickAddExpense 3;
            App.ClickCalculate]).
  reflexivity.
Defined.

Section HandlerProperties.
Context {num : Type} {Num : Number num} {T : NumberTest num}.
Variable trim : string → string.
Variable parseFloat : string → num.

Local Abbreviation run := (App.run trim parseFloat).

Lemma filter_removed (ps : list Participant.t) (x : string) :
  x ∉ Participant.id
        <$> (List.filter (fun p => negb (String.eqb (Participant.id p) x)) ps).
Proof.
  intros (p & -> & [_ Hp]%list_elem_of_In%List.filter_In)%list_elem_of_fmap.
  by rewrite String.eqb_refl in Hp.
Qed.

Lemma existsb_id (ps : list Participant.t) (x : string) :
  x ∈ Participant.id <$> ps →
  existsb (fun p => String.eqb (Participant.id p) x) ps = true.
Proof.
  intros (p & -> & Hp)%list_elem_of_fmap. apply existsb_exists.
  exists p. split; [by apply list_elem_of_In|apply String.eqb_refl].
Qed.

(** X14 (a removed participant stays the selected payer).
    [removeParticipant] leaves [newExpensePayer] alone, and
    [startExpenseEntry] only sets it when it is empty.  So from the
    first screen with participant [x] selected as payer: removing [x],
    going on to the expenses (two participants are left) and adding an
    expense with a valid amount records that expense with [x] as its
    payer, though [x] is no longer a participant; the expense list shows
    it without a name. *)
Theorem removed_payer_stays_selected (st : App.State num) (x s : string) (now : N) :
  App.step st = App.Step1 →
  App.newExpensePayer st = x → x ≠ "" →
  x ∈ Participant.id <$> App.participants st →
  2 ≤ length (List.filter (fun p => negb (String.eqb (Participant.id p) x))
                (App.participants st)) →
  n_isNaN (parseFloat s) = false → n_le (parseFloat s) n_zero = false →
  let st' := run [App.ClickRemoveParticipant x; App.ClickNext; App.ChangeAmount s;
                  App.ClickAddExpense now] st in
  App.step st' = App.Step2
  ∧ App.participants st'
    = List.filter (fun p => negb (String.eqb (Participant.id p) x)) (App.participants st)
  ∧ App.expenses st'
    = App.expenses st
      ++ [Expense.mk (toString now) x (parseFloat s) (Some (App.newExpenseDesc st))]
  ∧ (x ∉ Participant.id <$> App.participants st')
  ∧ nameOf (App.participants st') x = None.
Proof.
  intros Hstep Hsel Hx Hin Hlen Hnan Hle.
  pose proof (filter_removed (App.participants st) x) as Hout.
  pose proof (existsb_id _ _ Hin) as Hex.
  apply truthy_nonempty in Hx.
  destruct st as [stp ps es nn pay amt desc]. simpl in *. subst stp pay.
  unfold App.run, App.dispatch, App.offered. simpl. rewrite Hex. simpl.
  unfold App.removeParticipant. simpl.
  destruct (List.filter _ ps) as [|p0 [|p1 l]] eqn:E; simpl in Hlen; [lia..|].
  simpl. unfold App.startExpenseEntry. simpl. rewrite Hx. simpl.
  unfold App.addExpense. simpl. rewrite Hx, Hnan, Hle. simpl.
  split_and!; [done..|by apply nameOf_None].
Qed.

(** X15 (Reset All keeps the selected payer).  The Reset All button
    empties the participants and the expenses and leaves
    [newExpensePayer] alone.  So after a confirmed reset on the third
    screen, two new participants and a valid amount, the expense added is
    recorded with the payer that was selected before the reset, who is
    none of the new participants. *)
Theorem reset_keeps_payer (st : App.State num) (a b s : string) (n1 n2 n3 : N) :
  App.step st = App.Step3 →
  App.newExpensePayer st ≠ "" →
  trim a ≠ "" → trim b ≠ "" →
  toString n1 ≠ App.newExpensePayer st → toString n2 ≠ App.newExpensePayer st →
  n_isNaN (parseFloat s) = false → n_le (parseFloat s) n_zero = false →
  let st' := run [App.ClickReset true; App.ChangeName a; App.ClickAdd n1;
                  App.ChangeName b; App.ClickAdd n2; App.ClickNext;
                  App.ChangeAmount s; App.ClickAddExpense n3] st in
  App.step st' = App.Step2
  ∧ App.participants st'
    = [Participant.mk (toString n1) (trim a); Participant.mk (toString n2) (trim b)]
  ∧ App.expenses st'
    = [Expense.mk (toString n3) (App.newExpensePayer st) (parseFloat s)
         (Some (App.newExpenseDesc st))]
  ∧ nameOf (App.participants st') (App.newExpensePayer st) = None.
Proof.
  intros Hstep Hx Ha Hb H1 H2 Hnan Hle.
  apply truthy_nonempty in Hx, Ha, Hb.
  destruct st as [stp ps es nn pay amt desc]. simpl in *. subst stp.
  unfold App.run, App.dispatch, App.offered. simpl.
  unfold App.addParticipant. simpl. rewrite Ha. simpl. rewrite Hb. simpl.
  unfold App.startExpenseEntry. simpl. rewrite Hx. simpl.
  unfold App.addExpense. simpl. rewrite Hx, Hnan, Hle. simpl.
  split_and!; [done..|]. unfold nameOf. simpl.
  apply String.eqb_neq in H1, H2. by rewrite H1, H2.
Qed.

(** X16 (adding and deleting an expense).  On the second screen, adding
    an expense that passes the guard and then deleting it by its id
    leaves the expenses that have another id, in their order: the list
    as it was when the id is new, and without the older expenses of the
    same id (the same millisecond) otherwise. *)
Theorem add_then_delete_expense (st : App.State num) (now : N) :
  App.step st = App.Step2 →
  App.newExpensePayer st ≠ "" →
  n_isNaN (parseFloat (App.newExpenseAmount st)) = false →
  n_le (parseFloat (App.newExpenseAmount st)) n_zero = false →
  App.expenses (run [App.ClickAddExpense now; App.ClickDelete (toString now)] st)
  = List.filter (fun e => negb (String.eqb (Expense.id e) (toString now)))
      (App.expenses st)
  ∧ ((∀ e, e ∈ App.expenses st → Expense.id e ≠ toString now) →
     App.expenses (run [App.ClickAddExpense now; App.ClickDelete (toString now)] st)
     = App.expenses st).
Proof.
  intros Hstep Hx Hnan Hle. apply truthy_nonempty in Hx.
  assert (App.expenses (run [App.ClickAddExpense now; App.ClickDelete (toString now)] st)
          = List.filter (fun e => negb (String.eqb (Expense.id e) (toString now)))
              (App.expenses st)) as Heq.
  { destruct st as [stp ps es nn pay amt desc]. simpl in *. subst stp.
    unfold App.run, App.dispatch, App.offered. simpl.
    unfold App.addExpense. simpl. rewrite Hx, Hnan, Hle. simpl.
    rewrite existsb_app. simpl. rewrite String.eqb_refl, orb_true_r. simpl.
    rewrite List.filter_app. simpl. rewrite String.eqb_refl. simpl.
    by rewrite app_nil_r. }
  split; [done|]. intros Hfresh. rewrite Heq. clear Heq.
  induction (App.expenses st) as [|e es IH]; [done|]. simpl.
  destruct (String.eqb_spec (Expense.id e) (toString now)) as [E|E].
  - destruct (Hfresh e); [constructor|done].
  - simpl. f_equal. apply IH. intros e' He'. apply Hfresh. by constructor.
Qed.

End HandlerProperties.

Lemma removed_payer_stays_selected_witness :
  let st' : App.State Q :=
    App.mk App.Step2 [bob; carol] [Expense.mk "5" "1" 90%Q (Some "")] "" "1" "" "" in
  App.step st' = App.Step2
  ∧ App.participants st' = [bob; carol]
  ∧ App.expenses st' = [Expense.mk "5" "1" 90%Q (Some "")]
  ∧ ("1" ∉ Participant.id <$> App.participants st')
  ∧ nameOf (App.participants st') "1" = None.
Proof.
  refine (removed_payer_stays_selected (fun s => s) (fun _ => 90%Q)
            (App.mk App.Step1 [alice; bob; carol] [] "" "1" "" "") "1" "90" 5
            _ _ _ _ _ _ _).
  - reflexivity.
  - reflexivity.
  - discriminate.
  - vm_compute. constructor.
  - vm_compute. lia.
  - reflexivity.
  - reflexivity.
Defined.

Lemma reset_keeps_payer_witness :
  let st' : App.State Q :=
    App.mk App.Step2 [Participant.mk "7" "D"; Participant.mk "8" "E"]
      [Expense.mk "9" "1" 90%Q (Some "")] "" "1" "" "" in
  App.step st' = App.Step2
  ∧ App.participants st' = [Participant.mk "7" "D"; Participant.mk "8" "E"]
  ∧ App.expenses st' = [Expense.mk "9" "1" 90%Q (Some "")]
  ∧ nameOf (App.participants st') "1" = None.
Proof.
  refine (reset_keeps_payer (fun s => s) (fun _ => 90%Q)
            (App.mk App.Step3 [alice; bob] [dinner] "" "1" "" "") "D" "E" "90" 7 8 9
            _ _ _ _ _ _ _ _).
  - reflexivity.
  - discriminate.
  - discriminate.
  - discriminate.
  - discriminate.
  - discriminate.
  - reflexivity.
  - reflexivity.
Defined.

Lemma add_then_delete_expense_witness :
  ([dinner] : list (Expense.t Q)) = [dinner]
  ∧ ((∀ e : Expense.t Q, e ∈ [dinner] → Expense.id e ≠ "5") →
     ([dinner] : list (Expense.t Q)) = [dinner]).
Proof.
  refine (add_then_delete_expense (fun s => s) (fun _ => 90%Q)
            (App.mk App.Step2 [alice; bob] [dinner] "" "1" "90" "") 5 _ _ _ _).
  - reflexivity.
  - discriminate.
  - reflexivity.
  - reflexivity.
Defined.

(** ** The order of the expenses *)

Section Order.
Local Open Scope Q_scope.

(** A total of the callback is in lowest terms. *)
Lemma sumAmounts_canonical (es : list (Expense.t Q)) : Qred (sumAmounts es) = sumAmounts es.
Proof.
  unfold sumAmounts. generalize (eq_refl : Qred n_zero = n_zero).
  generalize (n_zero : Q). induction es as [|e es IH]; intros x Hx; [done|].
  simpl. apply IH. apply Qred_complete, Qred_correct.
Qed.

Lemma sumAmounts_Permutation_eq (es es' : list (Expense.t Q)) :
  es ≡ₚ es' → sumAmounts es = sumAmounts es'.
Proof.
  intros Hp. rewrite <- (sumAmounts_canonical es), <- (sumAmounts_canonical es').
  apply Qred_complete. rewrite !sumAmounts_Qsum.
  apply Qsum_Permutation. by apply Permutation_map.
Qed.

Lemma filter_Permutation_list {A} (f : A → bool) (l l' : list A) :
  l ≡ₚ l' → List.filter f l ≡ₚ List.filter f l'.
Proof.
  induction 1 as [|x l l' _ IH|x y l|l l' l'' _ IH1 _ IH2]; simpl.
  - done.
  - destruct (f x); [by constructor|done].
  - destruct (f x), (f y); try done. apply perm_swap.
  - by etrans.
Qed.

Lemma computeBalances_Permutation ps (es es' : list (Expense.t Q)) :
  es ≡ₚ es' → computeBalances ps es = computeBalances ps es'.
Proof.
  intros Hp. unfold computeBalances, average, totalSpent.
  rewrite (sumAmounts_Permutation_eq es es' Hp).
  apply List.map_ext. intros p. unfold paid.
  by rewrite (sumAmounts_Permutation_eq _ _ (filter_Permutation_list _ es es' Hp)).
Qed.

End Order.

(** X17 (the order of the expenses).  In exact arithmetic the
    settlements do not depend on the order in which the expenses were
    entered.  In binary64 they can: with two participants, the first of
    whom paid 1e16, 1 and 1, the amount to transfer is 5e15 when the
    large expense was entered first and 5e15 + 1 when it was entered
    last. *)
Theorem expense_order :
  (∀ ps (es es' : list (Expense.t Q)),
     es ≡ₚ es' → settlements ps es = settlements ps es')
  ∧ (let big := Expense.mk "e1" "1" 1e16%float None in
     let one := Expense.mk "e2" "1" 1%float None in
     let one' := Expense.mk "e3" "1" 1%float None in
     [big; one; one'] ≡ₚ [one; one'; big]
     ∧ settlements [alice; bob] [big; one; one']
       = Ok [Settlement.mk "2" "1" 5e15%float]
     ∧ settlements [alice; bob] [one; one'; big]
       = Ok [Settlement.mk "2" "1" 5000000000000001%float]).
Proof.
  split.
  - intros ps es es' Hp. unfold settlements, greedy, initial.
    by rewrite (computeBalances_Permutation ps es es' Hp).
  - cbv zeta. split_and!.
    + apply (Permutation_app_comm [_] [_; _]).
    + vm_compute. reflexivity.
    + vm_compute. reflexivity.
Qed.
